(** * gexify-lightning: a shallow embedding of [main.py]

    [main.py] turns the JSON description of the Lightning Network graph
    (as printed by [lncli describegraph]) into a networkx graph, optionally
    removes the nodes without channels and keeps the largest connected
    component, and hands the graph to [nx.write_gexf].

    The development follows the program:
    - Python values as [json.load] produces them ([pyval]), exceptions as an
      error monad ([result]);
    - insertion-ordered dictionaries as association lists ([dict_get],
      [dict_set], [dict_del]);
    - the part of [networkx.Graph] the program calls ([add_node],
      [add_edge], [remove_nodes_from], [isolates], [is_connected],
      [connected_components], ...), written after networkx 2.x (the last
      series that has [connected_component_subgraphs]);
    - the four functions of [main.py] themselves. *)

From Stdlib Require Import ZArith Lia Ascii.
From Stdlib Require Import Floats.SpecFloat.
From stdpp Require Import base option list strings relations.

Open Scope string_scope.
Open Scope list_scope.
Open Scope Z_scope.

(** ** Exceptions and the error monad

    [OutOfFuel] is not a Python exception: it marks a loop of the model
    that was given too few iterations ([plain_bfs_total] shows that the
    breadth-first search never needs more than it gets). *)

Inductive exn : Type :=
  | KeyError
  | TypeError
  | ValueError
  | OverflowError
  | AttributeError
  | NetworkXPointlessConcept
  | OutOfFuel.

Inductive result (A : Type) : Type :=
  | Ok (a : A)
  | Raise (e : exn).
Arguments Ok {A} a.
Arguments Raise {A} e.

Definition bind {A B : Type} (m : result A) (f : A -> result B) : result B :=
  match m with
  | Ok a => f a
  | Raise e => Raise e
  end.

Notation "'let!' x ':=' m 'in' k" := (bind m (fun x => k))
  (at level 10, x name, m at level 100, k at level 200).

Definition raises {A : Type} (m : result A) : Prop := exists e, m = Raise e.

(** A [for] loop whose body may raise: the state is threaded through the
    iterations and the first exception ends the loop. *)
Fixpoint for_each {S A : Type} (body : S -> A -> result S) (s : S) (xs : list A)
  : result S :=
  match xs with
  | [] => Ok s
  | x :: xs' => let! s' := body s x in for_each body s' xs'
  end.

(** ** Python values

    What [json.load] returns: [None], [bool], [int], [float], [str], [list]
    and [dict] (string keys, in document order).  A float is an IEEE value,
    described by the Standard Library's [spec_float]. *)

#[warnings="-register-all"]
Inductive pyval : Type :=
  | PNone
  | PBool (b : bool)
  | PInt (z : Z)
  | PFloat (f : spec_float)
  | PStr (s : string)
  | PList (l : list pyval)
  | PDict (d : list (string * pyval)).

(** ** Insertion-ordered dictionaries *)

Section Dict.
Context {K V : Type} `{EqDecision K}.

Fixpoint dict_get (k : K) (d : list (K * V)) : option V :=
  match d with
  | [] => None
  | (k', v) :: d' => if decide (k = k') then Some v else dict_get k d'
  end.

(** [d[k] = v]: an existing key keeps its position, a new one goes last. *)
Fixpoint dict_set (k : K) (v : V) (d : list (K * V)) : list (K * V) :=
  match d with
  | [] => [(k, v)]
  | (k', v') :: d' =>
      if decide (k = k') then (k', v) :: d' else (k', v') :: dict_set k v d'
  end.

Fixpoint dict_del (k : K) (d : list (K * V)) : list (K * V) :=
  match d with
  | [] => []
  | (k', v) :: d' =>
      if decide (k = k') then dict_del k d' else (k', v) :: dict_del k d'
  end.

Definition dict_keys (d : list (K * V)) : list K := map fst d.

Definition dict_has (k : K) (d : list (K * V)) : bool :=
  match dict_get k d with Some _ => true | None => false end.

(** [d.update(other)] *)
Definition dict_update (d other : list (K * V)) : list (K * V) :=
  fold_left (fun acc kv => dict_set (fst kv) (snd kv) acc) other d.
End Dict.

(** [v[k]] for a string [k]: only a [dict] can be indexed by a string. *)
Definition subscript (v : pyval) (k : string) : result pyval :=
  match v with
  | PDict d => match dict_get k d with
               | Some x => Ok x
               | None => Raise KeyError
               end
  | _ => Raise TypeError
  end.

(** [for x in v]: a list yields its items, a dict its keys, a string its
    characters; nothing else is iterable. *)
Fixpoint chars (s : string) : list pyval :=
  match s with
  | EmptyString => []
  | String c s' => PStr (String c EmptyString) :: chars s'
  end.

Definition py_iter (v : pyval) : result (list pyval) :=
  match v with
  | PList l => Ok l
  | PDict d => Ok (map (fun kv => PStr (fst kv)) d)
  | PStr s => Ok (chars s)
  | _ => Raise TypeError
  end.

Definition is_none (v : pyval) : bool :=
  match v with PNone => true | _ => false end.

(** ** [int(x)]

    [int] of a float truncates towards zero and rejects NaN and the
    infinities.  The grammar [int] accepts for a [str] (blanks, sign,
    underscores, Unicode digits) belongs to the interpreter: it is the
    parameter [int_of_str] of the model. *)

Definition int_of_float (f : spec_float) : result Z :=
  match f with
  | S754_zero _ => Ok 0
  | S754_infinity _ => Raise OverflowError
  | S754_nan => Raise ValueError
  | S754_finite s m e =>
      let a := if 0 <=? e then Z.pos m * 2 ^ e else Z.pos m / 2 ^ (- e) in
      Ok (if s then - a else a)
  end.

Definition py_int (int_of_str : string -> result Z) (v : pyval) : result Z :=
  match v with
  | PNone => Raise TypeError
  | PBool b => Ok (if b then 1 else 0)
  | PInt z => Ok z
  | PFloat f => int_of_float f
  | PStr s => int_of_str s
  | PList _ => Raise TypeError
  | PDict _ => Raise TypeError
  end.

(** ** Node identities

    A node of a networkx graph is any hashable object.  Dictionary keys
    are compared with [==], under which [True], [1] and [1.0] are one key:
    [key] holds one representative per class. *)

Inductive key : Type :=
  | KNone
  | KInt (z : Z)
  | KFrac (s : bool) (m : positive) (e : Z)
  | KInf (s : bool)
  | KNan
  | KStr (s : string).

#[global] Instance key_eq_dec : EqDecision key.
Proof. solve_decision. Defined.

(** [m * 2^e] with the factors of two moved from [m] into [e]. *)
Fixpoint odd_part (m : positive) (e : Z) : positive * Z :=
  match m with
  | xO m' => odd_part m' (e + 1)
  | _ => (m, e)
  end.

Definition key_of_float (f : spec_float) : key :=
  match f with
  | S754_zero _ => KInt 0
  | S754_infinity s => KInf s
  | S754_nan => KNan
  | S754_finite s m e =>
      let '(m', e') := odd_part m e in
      if 0 <=? e'
      then KInt (if s then - (Z.pos m' * 2 ^ e') else Z.pos m' * 2 ^ e')
      else KFrac s m' e'
  end.

(** [hash(v)] succeeds on scalars and raises [TypeError] on lists and
    dicts. *)
Definition hash_key (v : pyval) : result key :=
  match v with
  | PNone => Ok KNone
  | PBool b => Ok (KInt (if b then 1 else 0))
  | PInt z => Ok (KInt z)
  | PFloat f => Ok (key_of_float f)
  | PStr s => Ok (KStr s)
  | PList _ => Raise TypeError
  | PDict _ => Raise TypeError
  end.

(** ** [networkx.Graph]

    An undirected graph is two dictionaries: [_node] maps a node to its
    attribute dict, [_adj] maps a node to the dict of its neighbours, whose
    values are the edge attribute dicts (an edge [u - v] is stored under
    [_adj[u][v]] and under [_adj[v][u]]). *)

Definition attrs : Type := list (string * pyval).

Record Graph : Type := mkGraph {
  _node : list (key * attrs);
  _adj : list (key * list (key * attrs))
}.

(** [nx.Graph()] *)
Definition empty_graph : Graph := {| _node := []; _adj := [] |}.

(** [len(G)] and [for v in G] *)
Definition len (G : Graph) : nat := length (_node G).
Definition nodes (G : Graph) : list key := dict_keys (_node G).

(** [G.add_node(n, **attr)] *)
Definition add_node (G : Graph) (n : key) (attr : attrs) : Graph :=
  match dict_get n (_node G) with
  | None =>
      {| _node := dict_set n (dict_update [] attr) (_node G);
         _adj := dict_set n [] (_adj G) |}
  | Some a =>
      {| _node := dict_set n (dict_update a attr) (_node G);
         _adj := _adj G |}
  end.

(** The first lines of [add_edge]: an endpoint that is not a node yet
    becomes one, with no attribute and no neighbour. *)
Definition ensure_node (G : Graph) (n : key) : Graph :=
  if dict_has n (_node G) then G
  else {| _node := dict_set n [] (_node G); _adj := dict_set n [] (_adj G) |}.

(** [G.add_edge(u, v, **attr)] *)
Definition add_edge (G : Graph) (u v : key) (attr : attrs) : result Graph :=
  let G1 := ensure_node (ensure_node G u) v in
  match dict_get u (_adj G1) with
  | None => Raise KeyError
  | Some nbrs_u =>
      let datadict := dict_update (default [] (dict_get v nbrs_u)) attr in
      let adj1 := dict_set u (dict_set v datadict nbrs_u) (_adj G1) in
      match dict_get v adj1 with
      | None => Raise KeyError
      | Some nbrs_v =>
          Ok {| _node := _node G1;
                _adj := dict_set v (dict_set u datadict nbrs_v) adj1 |}
      end
  end.

(** [G.has_edge(u, v)] and the degree of a node (a self-loop counts
    twice). *)
Definition has_edge (G : Graph) (u v : key) : bool :=
  match dict_get u (_adj G) with
  | Some nbrs => dict_has v nbrs
  | None => false
  end.

Definition degree_of (n : key) (nbrs : list (key * attrs)) : nat :=
  (length nbrs + (if dict_has n nbrs then 1 else 0))%nat.

(** [nx.isolates(G)]: the nodes of degree zero, read off the adjacency
    dict. *)
Definition isolates (G : Graph) : list key :=
  dict_keys (filter (fun kv => degree_of (fst kv) (snd kv) = 0%nat) (_adj G)).

(** [G.remove_nodes_from(nodes)].  For each node the body runs inside
    [try: ... except KeyError: pass]: a failing lookup ends the work on
    that node and keeps what was already deleted. *)
Fixpoint del_from_nbrs (n : key) (us : list key)
    (adj : list (key * list (key * attrs)))
  : list (key * list (key * attrs)) * bool :=
  match us with
  | [] => (adj, true)
  | u :: us' =>
      match dict_get u adj with
      | None => (adj, false)
      | Some nb =>
          if dict_has n nb
          then del_from_nbrs n us' (dict_set u (dict_del n nb) adj)
          else (adj, false)
      end
  end.

Definition remove_node_try (G : Graph) (n : key) : Graph :=
  match dict_get n (_node G) with
  | None => G
  | Some _ =>
      let node' := dict_del n (_node G) in
      match dict_get n (_adj G) with
      | None => {| _node := node'; _adj := _adj G |}
      | Some nbrs =>
          match del_from_nbrs n (dict_keys nbrs) (_adj G) with
          | (adj', false) => {| _node := node'; _adj := adj' |}
          | (adj', true) => {| _node := node'; _adj := dict_del n adj' |}
          end
      end
  end.

Definition remove_nodes_from (G : Graph) (ns : list key) : Graph :=
  fold_left remove_node_try ns G.

(** [_plain_bfs(G, source)].  The Python sets [seen] and [nextlevel] are
    lists here; [bfs_level] is the [for v in thislevel] loop and
    [bfs_while] the [while nextlevel] loop around it. *)
Fixpoint bfs_level (adj : list (key * list (key * attrs)))
    (thislevel seen nextlevel : list key) : result (list key * list key) :=
  match thislevel with
  | [] => Ok (seen, nextlevel)
  | v :: rest =>
      if decide (v ∈ seen) then bfs_level adj rest seen nextlevel
      else
        match dict_get v adj with
        | None => Raise KeyError
        | Some nbrs =>
            bfs_level adj rest (v :: seen) (list_union nextlevel (dict_keys nbrs))
        end
  end.

Fixpoint bfs_while (fuel : nat) (adj : list (key * list (key * attrs)))
    (seen nextlevel : list key) : result (list key) :=
  match nextlevel with
  | [] => Ok seen
  | _ :: _ =>
      match fuel with
      | O => Raise OutOfFuel
      | S fuel' =>
          let! st := bfs_level adj nextlevel seen [] in
          bfs_while fuel' adj (fst st) (snd st)
      end
  end.

Definition _plain_bfs (G : Graph) (source : key) : result (list key) :=
  bfs_while (S (length (_adj G))) (_adj G) [] [source].

(** [nx.is_connected(G)] *)
Definition is_connected (G : Graph) : result bool :=
  match nodes G with
  | [] => Raise NetworkXPointlessConcept
  | v :: _ =>
      let! c := _plain_bfs G v in
      Ok (Nat.eqb (length c) (len G))
  end.

(** [nx.connected_components(G)] *)
Fixpoint cc_loop (G : Graph) (vs seen : list key) : result (list (list key)) :=
  match vs with
  | [] => Ok []
  | v :: vs' =>
      if decide (v ∈ seen) then cc_loop G vs' seen
      else
        let! c := _plain_bfs G v in
        let! cs := cc_loop G vs' (list_union seen c) in
        Ok (c :: cs)
  end.

Definition connected_components (G : Graph) : result (list (list key)) :=
  cc_loop G (nodes G) [].

(** [G.subgraph(c).copy()]: the nodes of [c] with their attributes and
    the edges of [G] between them. *)
Definition subgraph (G : Graph) (c : list key) : Graph :=
  {| _node := filter (fun kv => fst kv ∈ c) (_node G);
     _adj := map (fun kv => (fst kv, filter (fun e => fst e ∈ c) (snd kv)))
                 (filter (fun kv => fst kv ∈ c) (_adj G)) |}.

(** [nx.connected_component_subgraphs(G)] *)
Definition connected_component_subgraphs (G : Graph) : result (list Graph) :=
  let! cs := connected_components G in
  Ok (map (subgraph G) cs).

(** [max(graphs, key=len)]: the first graph of greatest length;
    [ValueError] on an empty sequence. *)
Fixpoint max_from (best : Graph) (gs : list Graph) : Graph :=
  match gs with
  | [] => best
  | g :: gs' => if (len best <? len g)%nat then max_from g gs' else max_from best gs'
  end.

Definition max_by_len (gs : list Graph) : result Graph :=
  match gs with
  | [] => Raise ValueError
  | g :: gs' => Ok (max_from g gs')
  end.

(** ** [main.py] *)

(** [clean_isolated_nodes(graph)]: the graph is changed in place; the
    model returns the graph after the call. *)
Definition clean_isolated_nodes (graph : Graph) : Graph :=
  remove_nodes_from graph (isolates graph).

(** [fix_connectivity(graph)]: the value of the call, [None] when the
    function falls off its end. *)
Definition fix_connectivity (graph : Graph) : result (option Graph) :=
  let! connected := is_connected graph in
  if negb connected then
    let! gs := connected_component_subgraphs graph in
    let! g := max_by_len gs in
    Ok (Some g)
  else Ok None.

Section Parse.
(** [int] applied to a [str]: the interpreter's part. *)
Variable int_of_str : string -> result Z.

(** [int(v[k])], as the value stored in the graph. *)
Definition int_field (v : pyval) (k : string) : result pyval :=
  let! x := subscript v k in
  let! z := py_int int_of_str x in
  Ok (PInt z).

(** [int(edge[p][k])] *)
Definition policy_field (edge : pyval) (p k : string) : result pyval :=
  let! policy := subscript edge p in
  int_field policy k.

(** The body of [for node in json_graph['nodes']]. *)
Definition parse_node (graph : Graph) (node : pyval) : result Graph :=
  let! pub_key := subscript node "pub_key" in
  let! last_update := subscript node "last_update" in
  let! n := hash_key pub_key in
  Ok (add_node graph n [("last_update", last_update)]).

(** The body of [for edge in json_graph['edges']]: the arguments of
    [add_edge] are evaluated from left to right, then the call hashes
    the two endpoints. *)
Definition parse_edge (graph : Graph) (edge : pyval) : result Graph :=
  let! policy1 := subscript edge "node1_policy" in
  if is_none policy1 then Ok graph else
  let! policy2 := subscript edge "node2_policy" in
  if is_none policy2 then Ok graph else
  let! node1_pub := subscript edge "node1_pub" in
  let! node2_pub := subscript edge "node2_pub" in
  let! capacity := int_field edge "capacity" in
  let! last_update := int_field edge "last_update" in
  let! channel_id := subscript edge "channel_id" in
  let! chan_point := subscript edge "chan_point" in
  let! node1_timelock_delta := policy_field edge "node1_policy" "time_lock_delta" in
  let! node1_min_htlc := policy_field edge "node1_policy" "min_htlc" in
  let! node1_fee_base_msat := policy_field edge "node1_policy" "fee_base_msat" in
  let! node1_fee_rate_milli_msat :=
    policy_field edge "node1_policy" "fee_rate_milli_msat" in
  let! node2_timelock_delta := policy_field edge "node2_policy" "time_lock_delta" in
  let! node2_min_htlc := policy_field edge "node2_policy" "min_htlc" in
  let! node2_fee_base_msat := policy_field edge "node2_policy" "fee_base_msat" in
  let! node2_fee_rate_milli_msat :=
    policy_field edge "node2_policy" "fee_rate_milli_msat" in
  let! u := hash_key node1_pub in
  let! v := hash_key node2_pub in
  add_edge graph u v
    [("capacity", capacity);
     ("last_update", last_update);
     ("channel_id", channel_id);
     ("chan_point", chan_point);
     ("node1_timelock_delta", node1_timelock_delta);
     ("node1_min_htlc", node1_min_htlc);
     ("node1_fee_base_msat", node1_fee_base_msat);
     ("node1_fee_rate_milli_msat", node1_fee_rate_milli_msat);
     ("node2_timelock_delta", node2_timelock_delta);
     ("node2_min_htlc", node2_min_htlc);
     ("node2_fee_base_msat", node2_fee_base_msat);
     ("node2_fee_rate_milli_msat", node2_fee_rate_milli_msat)].

(** [parse_graph_from_json(json_graph)] *)
Definition parse_graph_from_json (json_graph : pyval) : result Graph :=
  let! node_records := subscript json_graph "nodes" in
  let! node_list := py_iter node_records in
  let! graph := for_each parse_node empty_graph node_list in
  let! edge_records := subscript json_graph "edges" in
  let! edge_list := py_iter edge_records in
  for_each parse_edge graph edge_list.

(** [nx.write_gexf(graph, path)] reads [graph.graph] first, which
    [None] does not have; serialising a graph is taken to succeed. *)
Definition write_gexf (graph : option Graph) : result unit :=
  match graph with
  | Some _ => Ok tt
  | None => Raise AttributeError
  end.

(** Lines 93 to 98 of [main]: what the variable [graph] holds when the
    last line is reached.  [isolated] and [connected] are the flags
    [-i] and [-C]. *)
Definition main_graph (isolated connected : bool) (json_graph : pyval)
  : result (option Graph) :=
  let! graph := parse_graph_from_json json_graph in
  let graph := if isolated then clean_isolated_nodes graph else graph in
  if connected then fix_connectivity graph else Ok (Some graph).

(** [main], from the loaded document on: the arguments of the calls of
    [nx.write_gexf] it makes, and how it ends. *)
Definition main (isolated connected : bool) (json_graph : pyval)
  : list (option Graph) * result unit :=
  match main_graph isolated connected json_graph with
  | Raise e => ([], Raise e)
  | Ok graph => ([graph], write_gexf graph)
  end.
End Parse.

(** ** Vocabulary of the statements *)

(** [u] and [v] are joined by an edge; [v] can be reached from [u]. *)
Definition adjacent (G : Graph) (u v : key) : Prop := has_edge G u v = true.
Definition reach (G : Graph) : key -> key -> Prop := rtc (adjacent G).

(** Any two nodes are joined by a path. *)
Definition connected (G : Graph) : Prop :=
  forall u v, u ∈ nodes G -> v ∈ nodes G -> reach G u v.

(** What networkx maintains of its two dictionaries: no key twice, the
    same keys in both, every edge stored in both directions. *)
Record wf_graph (G : Graph) : Prop := mk_wf {
  wf_node_nodup : NoDup (nodes G);
  wf_adj_nodup : NoDup (dict_keys (_adj G));
  wf_adj_node : forall k, k ∈ dict_keys (_adj G) <-> k ∈ nodes G;
  wf_sym : forall u v, adjacent G u v -> adjacent G v u
}.

(** What holds of [seen] and [nextlevel] each time the [while] loop of
    [_plain_bfs] tests its condition: both hold nodes reached from
    [source], the neighbours of a node of [seen] are in one of the two,
    and so is [source]. *)
Record bfs_inv (G : Graph) (source : key) (seen nextlevel : list key) : Prop := mk_bfs_inv {
  bfs_seen_nodup : NoDup seen;
  bfs_seen_adj : forall x, x ∈ seen -> x ∈ dict_keys (_adj G);
  bfs_next_adj : forall x, x ∈ nextlevel -> x ∈ dict_keys (_adj G);
  bfs_reached : forall x, x ∈ seen \/ x ∈ nextlevel -> reach G source x;
  bfs_closed : forall x y, x ∈ seen -> adjacent G x y -> y ∈ seen \/ y ∈ nextlevel;
  bfs_source : source ∈ seen \/ source ∈ nextlevel
}.

(** [G.number_of_edges()]: half the sum of the degrees. *)
Definition number_of_edges (G : Graph) : nat :=
  (list_sum (map (fun kv => degree_of (fst kv) (snd kv)) (_adj G)) / 2)%nat.

(** The edge records the loop of [parse_graph_from_json] passes over: the
    first policy is [None], or the second one is. *)
Definition skipped (edge : pyval) : bool :=
  match subscript edge "node1_policy" with
  | Ok policy1 =>
      is_none policy1 ||
      match subscript edge "node2_policy" with
      | Ok policy2 => is_none policy2
      | Raise _ => false
      end
  | Raise _ => false
  end.

(** Both policies of an edge record are there and are not [None]. *)
Definition has_policies (edge : pyval) : Prop :=
  exists policy1 policy2,
    subscript edge "node1_policy" = Ok policy1 /\ is_none policy1 = false /\
    subscript edge "node2_policy" = Ok policy2 /\ is_none policy2 = false.

(** The fields of an edge record that go through [int]: a field of the
    record itself, or a field of one of its two policies. *)
Definition int_paths : list (option string * string) :=
  [(None, "capacity"); (None, "last_update");
   (Some "node1_policy", "time_lock_delta"); (Some "node1_policy", "min_htlc");
   (Some "node1_policy", "fee_base_msat");
   (Some "node1_policy", "fee_rate_milli_msat");
   (Some "node2_policy", "time_lock_delta"); (Some "node2_policy", "min_htlc");
   (Some "node2_policy", "fee_base_msat");
   (Some "node2_policy", "fee_rate_milli_msat")].

Definition field_at (edge : pyval) (path : option string * string) : result pyval :=
  match fst path with
  | None => subscript edge (snd path)
  | Some p => let! policy := subscript edge p in subscript policy (snd path)
  end.

(** The records the two loops of [parse_graph_from_json] run over. *)
Definition node_records (json_graph : pyval) (l : list pyval) : Prop :=
  exists v, subscript json_graph "nodes" = Ok v /\ py_iter v = Ok l.

Definition edge_records (json_graph : pyval) (l : list pyval) : Prop :=
  exists v, subscript json_graph "edges" = Ok v /\ py_iter v = Ok l.

(** The identity and the [last_update] of a node record. *)
Definition node_entry (node : pyval) (k : key) (v : pyval) : Prop :=
  exists pub_key,
    subscript node "pub_key" = Ok pub_key /\ hash_key pub_key = Ok k /\
    subscript node "last_update" = Ok v.

(** No record of [l] has the identity [k]. *)
Definition absent_from (k : key) (l : list pyval) : Prop :=
  forall node pub_key,
    node ∈ l -> subscript node "pub_key" = Ok pub_key -> hash_key pub_key <> Ok k.

(** During the first loop every attribute dict holds [last_update] and
    nothing else. *)
Definition only_last_update (G : Graph) : Prop :=
  forall k a, dict_get k (_node G) = Some a -> exists v, a = [("last_update", v)].

(** The node [k], if there is one, has no attribute. *)
Definition bare (k : key) (G : Graph) : Prop :=
  forall a, dict_get k (_node G) = Some a -> a = [].

(** The two endpoints of an edge record. *)
Definition edge_ends (edge : pyval) (u v : key) : Prop :=
  exists node1_pub node2_pub,
    subscript edge "node1_pub" = Ok node1_pub /\ hash_key node1_pub = Ok u /\
    subscript edge "node2_pub" = Ok node2_pub /\ hash_key node2_pub = Ok v.

(** ** Sample data

    [int_of_digits] reads a non-empty string of ASCII digits, on which it
    agrees with Python's [int]; it stands for [int_of_str] in the examples,
    none of which passes it anything else. *)

Definition digit_of (c : ascii) : option Z :=
  let n := Z.of_nat (nat_of_ascii c) in
  if (48 <=? n) && (n <=? 57) then Some (n - 48) else None.

Fixpoint digits_value (s : string) (acc : Z) : option Z :=
  match s with
  | EmptyString => Some acc
  | String c s' =>
      match digit_of c with
      | Some d => digits_value s' (10 * acc + d)
      | None => None
      end
  end.

Definition int_of_digits (s : string) : result Z :=
  match s with
  | EmptyString => Raise ValueError
  | _ =>
      match digits_value s 0 with
      | Some z => Ok z
      | None => Raise ValueError
      end
  end.

Definition node_record (pub_key : string) (last_update : pyval) : pyval :=
  PDict [("last_update", last_update); ("pub_key", PStr pub_key)].

Definition policy_record : pyval :=
  PDict [("time_lock_delta", PInt 144); ("min_htlc", PStr "1000");
         ("fee_base_msat", PStr "1000"); ("fee_rate_milli_msat", PStr "1")].

Definition edge_record (u v : string) (policy1 policy2 : pyval) : pyval :=
  PDict [("channel_id", PStr "1"); ("chan_point", PStr "x:0");
         ("last_update", PInt 7); ("node1_pub", PStr u); ("node2_pub", PStr v);
         ("capacity", PStr "16777215");
         ("node1_policy", policy1); ("node2_policy", policy2)].

Definition channel (u v : string) : pyval :=
  edge_record u v policy_record policy_record.

Definition document (node_records edge_records : pyval) : pyval :=
  PDict [("nodes", node_records); ("edges", edge_records)].

(** Two nodes and the channel between them. *)
Definition one_channel : pyval :=
  document (PList [node_record "a" (PInt 1); node_record "b" (PInt 2)])
           (PList [channel "a" "b"]).

(** Two triangles with no channel between them. *)
Definition two_triangles : pyval :=
  document
    (PList [node_record "a" (PInt 1); node_record "b" (PInt 1);
            node_record "c" (PInt 1); node_record "d" (PInt 1);
            node_record "e" (PInt 1); node_record "f" (PInt 1)])
    (PList [channel "a" "b"; channel "b" "c"; channel "c" "a";
            channel "d" "e"; channel "e" "f"; channel "f" "d"]).

(** The graph built from a sample document. *)
Definition graph_of (json_graph : pyval) : Graph :=
  match parse_graph_from_json int_of_digits json_graph with
  | Ok G => G
  | Raise _ => empty_graph
  end.

(** No node, no channel. *)
Definition empty_document : pyval := document (PList []) (PList []).

(** The identity [a] comes twice, the second time with a [last_update]
    that is not a number. *)
Definition duplicate_nodes : list pyval :=
  [node_record "a" (PInt 1); node_record "b" (PInt 2);
   node_record "a" (PStr "later")].

(** A node record whose [last_update] is a string. *)
Definition string_last_update : list pyval :=
  [node_record "a" (PStr "yesterday"); node_record "b" (PList [])].

(** Nine channels and a record whose first policy is [None]. *)
Definition nine_and_null : list pyval :=
  [channel "a" "b"; channel "b" "c"; channel "c" "d";
   edge_record "a" "j" PNone policy_record;
   channel "d" "e"; channel "e" "f"; channel "f" "g";
   channel "g" "h"; channel "h" "i"; channel "i" "a"].

(** A channel to [z], which no node record names. *)
Definition dangling_edge : pyval :=
  document (PList [node_record "a" (PInt 1)]) (PList [channel "a" "z"]).

(** A channel from [a] to [a], and a node without channel. *)
Definition self_loop : pyval :=
  document (PList [node_record "a" (PInt 1); node_record "b" (PInt 1)])
           (PList [channel "a" "a"]).

(** A channel whose capacity is not a number. *)
Definition bad_capacity_edge : pyval :=
  PDict [("channel_id", PStr "1"); ("chan_point", PStr "x:0");
         ("last_update", PInt 7); ("node1_pub", PStr "a"); ("node2_pub", PStr "b");
         ("capacity", PStr "12x");
         ("node1_policy", policy_record); ("node2_policy", policy_record)].

Definition bad_capacity : pyval :=
  document (PList [node_record "a" (PInt 1); node_record "b" (PInt 1)])
           (PList [channel "a" "b"; bad_capacity_edge]).

(** Three nodes and one channel: [c] is isolated. *)
Definition one_isolated : pyval :=
  document (PList [node_record "a" (PInt 1); node_record "b" (PInt 1);
                   node_record "c" (PInt 1)])
           (PList [channel "a" "b"]).

(** An edge record that lacks the key [node1_policy]. *)
Definition edge_without_policy_key : pyval :=
  PDict [("channel_id", PStr "1"); ("chan_point", PStr "x:0");
         ("last_update", PInt 7); ("node1_pub", PStr "a"); ("node2_pub", PStr "b");
         ("capacity", PStr "16777215"); ("node2_policy", policy_record)].

(** ** More vocabulary: edge attributes, complete records *)

(** [G[u][v]]: the attribute dict of the edge [u - v], if there is one. *)
Definition edge_attr (G : Graph) (u v : key) : option attrs :=
  match dict_get u (_adj G) with
  | Some nbrs => dict_get v nbrs
  | None => None
  end.

(** The keyword arguments of the call of [add_edge], in the order of the
    source (lines 48 to 60). *)
Definition edge_keys : list string :=
  ["capacity"; "last_update"; "channel_id"; "chan_point";
   "node1_timelock_delta"; "node1_min_htlc"; "node1_fee_base_msat";
   "node1_fee_rate_milli_msat";
   "node2_timelock_delta"; "node2_min_htlc"; "node2_fee_base_msat";
   "node2_fee_rate_milli_msat"].

(** Every edge of the graph carries exactly these twelve attributes. *)
Definition edges_ok (G : Graph) : Prop :=
  forall x y a, edge_attr G x y = Some a -> dict_keys a = edge_keys.

(** The two entries of an edge hold the same attribute dict. *)
Definition attr_sym (G : Graph) : Prop :=
  forall x y, edge_attr G x y = edge_attr G y x.

(** What the parser maintains of the graph it builds. *)
Definition parse_inv_graph (G : Graph) : Prop :=
  wf_graph G /\ edges_ok G /\ attr_sym G.

(** Which attribute each field passed to [int] ends up in. *)
Definition int_attrs : list ((option string * string) * string) :=
  [((None, "capacity"), "capacity");
   ((None, "last_update"), "last_update");
   ((Some "node1_policy", "time_lock_delta"), "node1_timelock_delta");
   ((Some "node1_policy", "min_htlc"), "node1_min_htlc");
   ((Some "node1_policy", "fee_base_msat"), "node1_fee_base_msat");
   ((Some "node1_policy", "fee_rate_milli_msat"), "node1_fee_rate_milli_msat");
   ((Some "node2_policy", "time_lock_delta"), "node2_timelock_delta");
   ((Some "node2_policy", "min_htlc"), "node2_min_htlc");
   ((Some "node2_policy", "fee_base_msat"), "node2_fee_base_msat");
   ((Some "node2_policy", "fee_rate_milli_msat"), "node2_fee_rate_milli_msat")].

(** The keys of an edge record that the call of [add_edge] reads
    directly. *)
Definition edge_required_keys : list string :=
  ["node1_pub"; "node2_pub"; "capacity"; "last_update"; "channel_id"; "chan_point"].

Section EdgeCall.
Variable int_of_str : string -> result Z.

(** The arguments of the call of [add_edge] (lines 46 to 61), evaluated
    as Python does, from left to right: the two endpoints, hashed by the
    call, and the keyword arguments. *)
Definition edge_call (edge : pyval) : result (key * key * attrs) :=
  let! node1_pub := subscript edge "node1_pub" in
  let! node2_pub := subscript edge "node2_pub" in
  let! capacity := int_field int_of_str edge "capacity" in
  let! last_update := int_field int_of_str edge "last_update" in
  let! channel_id := subscript edge "channel_id" in
  let! chan_point := subscript edge "chan_point" in
  let! node1_timelock_delta :=
    policy_field int_of_str edge "node1_policy" "time_lock_delta" in
  let! node1_min_htlc := policy_field int_of_str edge "node1_policy" "min_htlc" in
  let! node1_fee_base_msat :=
    policy_field int_of_str edge "node1_policy" "fee_base_msat" in
  let! node1_fee_rate_milli_msat :=
    policy_field int_of_str edge "node1_policy" "fee_rate_milli_msat" in
  let! node2_timelock_delta :=
    policy_field int_of_str edge "node2_policy" "time_lock_delta" in
  let! node2_min_htlc := policy_field int_of_str edge "node2_policy" "min_htlc" in
  let! node2_fee_base_msat :=
    policy_field int_of_str edge "node2_policy" "fee_base_msat" in
  let! node2_fee_rate_milli_msat :=
    policy_field int_of_str edge "node2_policy" "fee_rate_milli_msat" in
  let! u := hash_key node1_pub in
  let! v := hash_key node2_pub in
  Ok (u, v,
      [("capacity", capacity);
       ("last_update", last_update);
       ("channel_id", channel_id);
       ("chan_point", chan_point);
       ("node1_timelock_delta", node1_timelock_delta);
       ("node1_min_htlc", node1_min_htlc);
       ("node1_fee_base_msat", node1_fee_base_msat);
       ("node1_fee_rate_milli_msat", node1_fee_rate_milli_msat);
       ("node2_timelock_delta", node2_timelock_delta);
       ("node2_min_htlc", node2_min_htlc);
       ("node2_fee_base_msat", node2_fee_base_msat);
       ("node2_fee_rate_milli_msat", node2_fee_rate_milli_msat)]).

(** An edge record that the parser can insert: the two policies are
    there, the six keys read from the record are there, the ten fields
    passed to [int] are there and [int] accepts them, and the two
    endpoints can be hashed. *)
Definition complete_edge (edge : pyval) : Prop :=
  has_policies edge /\
  (forall k, k ∈ edge_required_keys -> exists x, subscript edge k = Ok x) /\
  (forall path, path ∈ int_paths ->
     exists x z, field_at edge path = Ok x /\ py_int int_of_str x = Ok z) /\
  (exists u v, edge_ends edge u v).

(** An edge record the parser accepts: passed over, or complete. *)
Definition edge_accepted (edge : pyval) : Prop :=
  skipped edge = true \/ complete_edge edge.
End EdgeCall.

(** [u' - v'] is the edge [u - v], read in one direction or the other. *)
Definition same_pair (u v u' v' : key) : Prop :=
  (u' = u /\ v' = v) \/ (u' = v /\ v' = u).

#[global] Instance same_pair_dec (u v u' v' : key) : Decision (same_pair u v u' v').
Proof. unfold same_pair. apply _. Defined.

(** ** More sample data *)

(** The channel [a - b] announced twice, the second time, the other way
    round, with another capacity. *)
Definition second_channel : pyval :=
  PDict [("channel_id", PStr "2"); ("chan_point", PStr "y:1");
         ("last_update", PInt 9); ("node1_pub", PStr "b"); ("node2_pub", PStr "a");
         ("capacity", PInt 500);
         ("node1_policy", policy_record); ("node2_policy", policy_record)].

Definition channel_twice : pyval :=
  document (PList [node_record "a" (PInt 1); node_record "b" (PInt 2)])
           (PList [channel "a" "b"; second_channel]).

(** A node record without [pub_key]. *)
Definition nameless_node : pyval := PDict [("last_update", PInt 3)].

Definition nameless_document : pyval :=
  document (PList [node_record "a" (PInt 1); nameless_node]) (PList []).

(** A channel record without [chan_point]. *)
Definition pointless_edge : pyval :=
  PDict [("channel_id", PStr "1");
         ("last_update", PInt 7); ("node1_pub", PStr "a"); ("node2_pub", PStr "b");
         ("capacity", PStr "16777215");
         ("node1_policy", policy_record); ("node2_policy", policy_record)].

Definition pointless_document : pyval :=
  document (PList [node_record "a" (PInt 1)]) (PList [pointless_edge]).

(** The nodes given as a dict keyed by identity instead of a list. *)
Definition nodes_as_dict : pyval :=
  document (PDict [("a", PInt 1); ("b", PInt 2)]) (PList []).

(** * Properties *)

(** ** The error monad *)

Lemma bind_Ok {A B : Type} (m : result A) (f : A -> result B) (b : B) :
  bind m f = Ok b -> exists a, m = Ok a /\ f a = Ok b.
Proof. destruct m as [a|e]; simpl; [eauto | discriminate]. Qed.

Lemma raises_bind_l {A B : Type} (m : result A) (f : A -> result B) :
  raises m -> raises (bind m f).
Proof. intros [e ->]. exists e. reflexivity. Qed.

Lemma raises_bind_r {A B : Type} (m : result A) (f : A -> result B) :
  (forall a, raises (f a)) -> raises (bind m f).
Proof. intros H. destruct m as [a|e]; simpl; [apply H | by exists e]. Qed.

Lemma raises_not_Ok {A : Type} (m : result A) (a : A) : raises m -> m <> Ok a.
Proof. intros [e ->]. discriminate. Qed.

Lemma for_each_app {S A : Type} (body : S -> A -> result S) (s : S) (xs ys : list A) :
  for_each body s (xs ++ ys) = let! s' := for_each body s xs in for_each body s' ys.
Proof.
  revert s. induction xs as [|x xs IH]; intros s; simpl; [reflexivity|].
  destruct (body s x) as [s'|e]; simpl; [apply IH | reflexivity].
Qed.

(** An invariant of the loop body is an invariant of the loop. *)
Lemma for_each_inv {S A : Type} (I : S -> Prop) (body : S -> A -> result S) (xs : list A) :
  (forall s x s', x ∈ xs -> I s -> body s x = Ok s' -> I s') ->
  forall s s', I s -> for_each body s xs = Ok s' -> I s'.
Proof.
  induction xs as [|x xs IH]; intros Hbody s s' Hs; simpl.
  - intros [= <-]. exact Hs.
  - intros H. apply bind_Ok in H as (s1 & H1 & H2).
    apply (IH (fun s x s' Hx => Hbody s x s' (list_elem_of_further _ _ _ Hx)) s1 s');
      [|exact H2].
    apply (Hbody s x s1); [left | exact Hs | exact H1].
Qed.

(** A body that never raises on the items of [xs] gives a loop that does
    not raise. *)
Lemma for_each_total {S A : Type} (body : S -> A -> result S) (xs : list A) :
  (forall s x, x ∈ xs -> exists s', body s x = Ok s') ->
  forall s, exists s', for_each body s xs = Ok s'.
Proof.
  induction xs as [|x xs IH]; intros Hbody s; simpl; [eauto|].
  destruct (Hbody s x) as [s1 ->]; [left|]. simpl.
  apply IH. intros s0 y Hy. apply Hbody. by right.
Qed.

(** A body that raises on [x] whatever the state makes the loop raise. *)
Lemma for_each_raises {S A : Type} (body : S -> A -> result S) (xs : list A) (x : A) :
  x ∈ xs -> (forall s, raises (body s x)) -> forall s, raises (for_each body s xs).
Proof.
  intros Hin Hx. induction xs as [|y xs IH]; intros s.
  - by apply elem_of_nil in Hin.
  - simpl. apply elem_of_cons in Hin as [->|Hin].
    + apply raises_bind_l, Hx.
    + apply raises_bind_r. intros s'. by apply IH.
Qed.

(** ** Dictionaries *)

Section DictFacts.
Context {K V : Type} `{EqDecision K}.
Implicit Types (k : K) (v : V) (d : list (K * V)).

Lemma elem_of_dict_keys k d : k ∈ dict_keys d <-> exists v, (k, v) ∈ d.
Proof.
  unfold dict_keys. induction d as [|[k' v'] d IH]; simpl.
  - split; [intros H0; by apply elem_of_nil in H0|].
    intros [v H0]. by apply elem_of_nil in H0.
  - rewrite elem_of_cons, IH. split.
    + intros [->|[v Hv]]; [exists v'; left | exists v; by right].
    + intros [v Hv]. apply elem_of_cons in Hv as [[= -> ->]|Hv]; eauto.
Qed.

Lemma dict_get_Some_elem k v d : dict_get k d = Some v -> (k, v) ∈ d.
Proof.
  induction d as [|[k' v'] d IH]; simpl; [discriminate|].
  destruct (decide (k = k')) as [->|Hne].
  - intros [= ->]. left.
  - intros Hg. right. auto.
Qed.

Lemma dict_get_None k d : dict_get k d = None <-> k ∉ dict_keys d.
Proof.
  unfold dict_keys. induction d as [|[k' v'] d IH]; simpl.
  - split; [intros _; apply not_elem_of_nil | reflexivity].
  - rewrite not_elem_of_cons. destruct (decide (k = k')) as [->|Hne].
    + split; [discriminate | intros [Hk _]; by destruct Hk].
    + rewrite IH. tauto.
Qed.

Lemma dict_get_is_Some k d : is_Some (dict_get k d) <-> k ∈ dict_keys d.
Proof.
  destruct (dict_get k d) as [v|] eqn:Hg.
  - split; [intros _ | eauto].
    apply elem_of_dict_keys. exists v. by apply dict_get_Some_elem.
  - split; [intros [v Hv]; discriminate|].
    intros Hin. by apply dict_get_None in Hg.
Qed.

Lemma dict_has_true k d : dict_has k d = true <-> k ∈ dict_keys d.
Proof.
  rewrite <- dict_get_is_Some. unfold dict_has.
  destruct (dict_get k d); split; eauto; try discriminate.
  intros [v Hv]. discriminate.
Qed.

Lemma dict_has_false k d : dict_has k d = false <-> k ∉ dict_keys d.
Proof.
  rewrite <- dict_has_true. destruct (dict_has k d); split; congruence.
Qed.

Lemma dict_get_elem_NoDup k v d :
  NoDup (dict_keys d) -> (k, v) ∈ d -> dict_get k d = Some v.
Proof.
  unfold dict_keys. induction d as [|[k' v'] d IH]; simpl; intros Hnd Hin.
  - by apply elem_of_nil in Hin.
  - apply NoDup_cons in Hnd as [Hk' Hnd].
    apply elem_of_cons in Hin as [[= -> ->]|Hin].
    + by rewrite decide_True.
    + destruct (decide (k = k')) as [->|Hne]; [|auto].
      destruct Hk'. apply elem_of_dict_keys. eauto.
Qed.

Lemma dict_get_set_eq k v d : dict_get k (dict_set k v d) = Some v.
Proof.
  induction d as [|[k' v'] d IH]; simpl.
  - by rewrite decide_True.
  - destruct (decide (k = k')) as [->|Hne]; simpl.
    + by rewrite decide_True.
    + by rewrite decide_False.
Qed.

Lemma dict_get_set_ne k k' v d :
  k <> k' -> dict_get k' (dict_set k v d) = dict_get k' d.
Proof.
  intros Hne. induction d as [|[k0 v0] d IH]; simpl.
  - by rewrite decide_False.
  - destruct (decide (k = k0)) as [->|Hne0]; simpl.
    + by rewrite !decide_False.
    + by rewrite IH.
Qed.

Lemma dict_keys_set k v d :
  dict_keys (dict_set k v d) =
  if dict_has k d then dict_keys d else dict_keys d ++ [k].
Proof.
  unfold dict_has, dict_keys. induction d as [|[k' v'] d IH]; simpl; [reflexivity|].
  destruct (decide (k = k')) as [->|Hne]; simpl; [reflexivity|].
  rewrite IH. by destruct (dict_get k d).
Qed.

Lemma elem_of_dict_keys_set k k' v d :
  k' ∈ dict_keys (dict_set k v d) <-> k' = k \/ k' ∈ dict_keys d.
Proof.
  rewrite dict_keys_set. destruct (dict_has k d) eqn:Hh.
  - apply dict_has_true in Hh. split; [auto | intros [->|?]; auto].
  - rewrite elem_of_app, list_elem_of_singleton. tauto.
Qed.

Lemma NoDup_dict_keys_set k v d :
  NoDup (dict_keys d) -> NoDup (dict_keys (dict_set k v d)).
Proof.
  intros Hnd. rewrite dict_keys_set. destruct (dict_has k d) eqn:Hh; [done|].
  apply dict_has_false in Hh. apply NoDup_app. split_and!; [done| |apply NoDup_singleton].
  intros x Hx Hx'. apply list_elem_of_singleton in Hx'. by subst.
Qed.

Lemma length_dict_set_has k v d :
  dict_has k d = true -> length (dict_set k v d) = length d.
Proof.
  unfold dict_has. induction d as [|[k' v'] d IH]; simpl; [discriminate|].
  destruct (decide (k = k')); simpl; [reflexivity|]. intros Hh. by rewrite IH.
Qed.

Lemma dict_del_filter k d : dict_del k d = filter (fun kv => fst kv <> k) d.
Proof.
  induction d as [|[k' v'] d IH]; simpl; [reflexivity|].
  destruct (decide (k = k')) as [->|Hne].
  - rewrite filter_cons_False; [done | simpl; auto].
  - rewrite filter_cons_True; [by rewrite IH | simpl; auto].
Qed.

Lemma dict_get_del_ne k k' d : k <> k' -> dict_get k' (dict_del k d) = dict_get k' d.
Proof.
  intros Hne. induction d as [|[k0 v0] d IH]; simpl; [reflexivity|].
  destruct (decide (k = k0)) as [->|Hne0]; simpl.
  - by rewrite decide_False.
  - by rewrite IH.
Qed.

Lemma elem_of_dict_keys_del k k' d :
  k' ∈ dict_keys (dict_del k d) <-> k' <> k /\ k' ∈ dict_keys d.
Proof.
  rewrite dict_del_filter, !elem_of_dict_keys. split.
  - intros [v Hv]. apply list_elem_of_filter in Hv as [Hne Hv]. eauto.
  - intros [Hne [v Hv]]. exists v. by apply list_elem_of_filter.
Qed.

(** Looking up a key in a dictionary filtered on its keys. *)
Lemma dict_get_filter (P : K -> Prop) `{forall k, Decision (P k)} k d :
  dict_get k (filter (fun kv => P (fst kv)) d) =
  if decide (P k) then dict_get k d else None.
Proof.
  induction d as [|[k' v'] d IH]; simpl.
  - by destruct (decide (P k)).
  - rewrite filter_cons. simpl. destruct (decide (P k')) as [Hk'|Hk']; simpl.
    + rewrite IH. repeat case_decide; simplify_eq; done.
    + rewrite IH. repeat case_decide; simplify_eq; done.
Qed.

Lemma dict_keys_filter (P : K -> Prop) `{forall k, Decision (P k)} d :
  dict_keys (filter (fun kv => P (fst kv)) d) = filter P (dict_keys d).
Proof.
  unfold dict_keys. induction d as [|[k' v'] d IH]; simpl; [reflexivity|].
  rewrite !filter_cons. simpl. destruct (decide (P k')); simpl; by rewrite IH.
Qed.

Lemma length_dict_keys d : length (dict_keys d) = length d.
Proof. unfold dict_keys. apply length_map. Qed.
End DictFacts.

(** ** Building a graph *)

Lemma dict_has_set {K V : Type} `{EqDecision K} (k k' : K) (v : V) (d : list (K * V)) :
  dict_has k' (dict_set k v d) = if decide (k = k') then true else dict_has k' d.
Proof.
  unfold dict_has. destruct (decide (k = k')) as [->|Hne].
  - by rewrite dict_get_set_eq.
  - by rewrite dict_get_set_ne.
Qed.

Lemma adjacent_iff (G : Graph) (u v : key) :
  adjacent G u v <->
  exists nbrs, dict_get u (_adj G) = Some nbrs /\ v ∈ dict_keys nbrs.
Proof.
  unfold adjacent, has_edge. destruct (dict_get u (_adj G)) as [nbrs|].
  - rewrite dict_has_true. split; [eauto | by intros (? & [= <-] & ?)].
  - split; [discriminate | by intros (? & [=] & _)].
Qed.

Lemma adjacent_in_adj (G : Graph) (u v : key) :
  adjacent G u v -> u ∈ dict_keys (_adj G).
Proof.
  intros (nbrs & Hg & _)%adjacent_iff. apply dict_get_is_Some. eauto.
Qed.

Lemma wf_adjacent_nodes (G : Graph) (u v : key) :
  wf_graph G -> adjacent G u v -> u ∈ nodes G /\ v ∈ nodes G.
Proof.
  intros Hwf Huv. split; apply (wf_adj_node G Hwf).
  - by apply adjacent_in_adj with v.
  - apply adjacent_in_adj with u. by apply (wf_sym G Hwf).
Qed.

Lemma wf_empty_graph : wf_graph empty_graph.
Proof.
  split; simpl; try apply NoDup_nil; try done.
Qed.

(** A node that enters the graph has no neighbour: the edges stay as they
    were. *)
Lemma has_edge_fresh_node (G : Graph) (n : key) (node' : list (key * attrs)) (u v : key) :
  n ∉ dict_keys (_adj G) ->
  has_edge {| _node := node'; _adj := dict_set n [] (_adj G) |} u v = has_edge G u v.
Proof.
  intros Hn. unfold has_edge. simpl. destruct (decide (n = u)) as [->|Hne].
  - rewrite dict_get_set_eq. apply dict_get_None in Hn. by rewrite Hn.
  - by rewrite dict_get_set_ne.
Qed.

Lemma wf_fresh_node (G : Graph) (n : key) (a : attrs) :
  wf_graph G -> n ∉ nodes G ->
  wf_graph {| _node := dict_set n a (_node G); _adj := dict_set n [] (_adj G) |}.
Proof.
  intros Hwf Hn.
  assert (Hn' : n ∉ dict_keys (_adj G)) by (by rewrite (wf_adj_node G Hwf)).
  split; unfold nodes, adjacent; simpl.
  - apply NoDup_dict_keys_set, Hwf.
  - apply NoDup_dict_keys_set, Hwf.
  - intros k. rewrite !elem_of_dict_keys_set, (wf_adj_node G Hwf). done.
  - intros u v. rewrite !has_edge_fresh_node by done. apply Hwf.
Qed.

Lemma wf_same_adj (G : Graph) (n : key) (a : attrs) :
  wf_graph G -> n ∈ nodes G ->
  wf_graph {| _node := dict_set n a (_node G); _adj := _adj G |}.
Proof.
  intros Hwf Hn. split; unfold nodes, adjacent; simpl.
  - apply NoDup_dict_keys_set, Hwf.
  - apply Hwf.
  - intros k. rewrite elem_of_dict_keys_set, (wf_adj_node G Hwf).
    unfold nodes. split; [auto | intros [->|?]; auto].
  - apply Hwf.
Qed.

Lemma wf_add_node (G : Graph) (n : key) (a : attrs) :
  wf_graph G -> wf_graph (add_node G n a).
Proof.
  intros Hwf. unfold add_node. destruct (dict_get n (_node G)) as [a0|] eqn:Hg.
  - apply wf_same_adj; [done|]. apply dict_get_is_Some. eauto.
  - apply wf_fresh_node; [done|]. by apply dict_get_None.
Qed.

Lemma has_edge_add_node (G : Graph) (n : key) (a : attrs) (u v : key) :
  wf_graph G -> has_edge (add_node G n a) u v = has_edge G u v.
Proof.
  intros Hwf. unfold add_node. destruct (dict_get n (_node G)) as [a0|] eqn:Hg.
  - reflexivity.
  - apply has_edge_fresh_node. rewrite (wf_adj_node G Hwf). by apply dict_get_None.
Qed.

Lemma nodes_add_node (G : Graph) (n : key) (a : attrs) (k : key) :
  k ∈ nodes (add_node G n a) <-> k = n \/ k ∈ nodes G.
Proof.
  unfold add_node, nodes.
  destruct (dict_get n (_node G)); simpl; apply elem_of_dict_keys_set.
Qed.

Lemma node_add_node_ne (G : Graph) (n : key) (a : attrs) (k : key) :
  n <> k -> dict_get k (_node (add_node G n a)) = dict_get k (_node G).
Proof.
  intros Hne. unfold add_node.
  destruct (dict_get n (_node G)); simpl; by apply dict_get_set_ne.
Qed.

Lemma wf_ensure_node (G : Graph) (n : key) : wf_graph G -> wf_graph (ensure_node G n).
Proof.
  intros Hwf. unfold ensure_node. destruct (dict_has n (_node G)) eqn:Hh; [done|].
  apply wf_fresh_node; [done|]. by apply dict_has_false.
Qed.

Lemma has_edge_ensure_node (G : Graph) (n u v : key) :
  wf_graph G -> has_edge (ensure_node G n) u v = has_edge G u v.
Proof.
  intros Hwf. unfold ensure_node. destruct (dict_has n (_node G)) eqn:Hh; [done|].
  apply has_edge_fresh_node. rewrite (wf_adj_node G Hwf). by apply dict_has_false.
Qed.

Lemma nodes_ensure_node (G : Graph) (n k : key) :
  k ∈ nodes (ensure_node G n) <-> k = n \/ k ∈ nodes G.
Proof.
  unfold ensure_node, nodes. destruct (dict_has n (_node G)) eqn:Hh; simpl.
  - apply dict_has_true in Hh. split; [auto | intros [->|?]; auto].
  - apply elem_of_dict_keys_set.
Qed.

(** [ensure_node] leaves the attributes of the nodes that exist alone and
    gives a node it creates the empty attribute dict. *)
Lemma node_ensure_node_old (G : Graph) (n k : key) (a : attrs) :
  dict_get k (_node G) = Some a -> dict_get k (_node (ensure_node G n)) = Some a.
Proof.
  intros Hk. unfold ensure_node. destruct (dict_has n (_node G)) eqn:Hh; [done|].
  simpl. rewrite dict_get_set_ne; [done|]. intros ->.
  unfold dict_has in Hh. by rewrite Hk in Hh.
Qed.

Lemma node_ensure_node_new (G : Graph) (n : key) :
  n ∉ nodes G -> dict_get n (_node (ensure_node G n)) = Some [].
Proof.
  intros Hn. unfold ensure_node. apply dict_has_false in Hn. rewrite Hn. simpl.
  apply dict_get_set_eq.
Qed.

(** What [add_edge] does to a well-formed graph: it does not raise, the
    node dictionary is the one [ensure_node] leaves, and the edge [u - v]
    is added in both directions. *)
Lemma add_edge_spec (G : Graph) (u v : key) (a : attrs) :
  wf_graph G ->
  exists G',
    add_edge G u v a = Ok G' /\
    _node G' = _node (ensure_node (ensure_node G u) v) /\
    wf_graph G' /\
    (forall x y, adjacent G' x y <->
                 adjacent G x y \/ (x = u /\ y = v) \/ (x = v /\ y = u)).
Proof.
  intros Hwf. unfold add_edge.
  set (G1 := ensure_node (ensure_node G u) v).
  assert (Hwf1 : wf_graph G1) by (by apply wf_ensure_node, wf_ensure_node).
  assert (Hu : u ∈ dict_keys (_adj G1)).
  { apply (wf_adj_node G1 Hwf1), nodes_ensure_node. right.
    apply nodes_ensure_node. by left. }
  assert (Hv : v ∈ dict_keys (_adj G1)).
  { apply (wf_adj_node G1 Hwf1), nodes_ensure_node. by left. }
  assert (Hadj1 : forall x y, has_edge G1 x y = has_edge G x y).
  { intros x y. unfold G1. by rewrite !has_edge_ensure_node by (by try apply wf_ensure_node). }
  apply dict_get_is_Some in Hu as [nu Hnu]. rewrite Hnu.
  set (dd := dict_update (default [] (dict_get v nu)) a).
  set (adj1 := dict_set u (dict_set v dd nu) (_adj G1)).
  assert (Hv1 : exists nv, dict_get v adj1 = Some nv /\
            forall y, dict_has y nv = (if decide (v = u) then bool_decide (y = v) else false)
                                      || has_edge G1 v y).
  { unfold adj1. destruct (decide (u = v)) as [->|Hne].
    - rewrite dict_get_set_eq. eexists. split; [done|]. intros y.
      rewrite dict_has_set. destruct (decide (v = v)) as [_|?]; [|done].
      unfold has_edge. rewrite Hnu.
      destruct (decide (v = y)) as [->|Hne].
      + by rewrite bool_decide_eq_true_2.
      + by rewrite bool_decide_eq_false_2 by congruence.
    - rewrite dict_get_set_ne by done. apply dict_get_is_Some in Hv as [nv Hnv].
      exists nv. split; [done|]. intros y. rewrite decide_False by congruence.
      unfold has_edge. by rewrite Hnv. }
  destruct Hv1 as (nv & Hnv & Hhas). rewrite Hnv.
  eexists. split; [reflexivity|]. split; [reflexivity|].
  assert (Hedge : forall x y,
    has_edge {| _node := _node G1; _adj := dict_set v (dict_set u dd nv) adj1 |} x y = true <->
    has_edge G x y = true \/ (x = u /\ y = v) \/ (x = v /\ y = u)).
  { intros x y. rewrite <- Hadj1. unfold has_edge at 1. simpl.
    destruct (decide (v = x)) as [<-|Hvx].
    - rewrite dict_get_set_eq, dict_has_set, Hhas.
      destruct (decide (u = y)) as [<-|Huy].
      + split; [intros _; right; right; done | done].
      + destruct (decide (v = u)) as [->|Hvu].
        * rewrite orb_true_iff, bool_decide_eq_true. split.
          -- intros [->|?]; [by destruct Huy | by left].
          -- intros [?|[[_ ->]|[_ ->]]]; [by right | by destruct Huy | by destruct Huy].
        * simpl. split; [by left|]. intros [?|[[? ?]|[_ ?]]]; [done|congruence|congruence].
    - rewrite dict_get_set_ne by done. unfold adj1.
      destruct (decide (u = x)) as [<-|Hux].
      + rewrite dict_get_set_eq, dict_has_set.
        destruct (decide (v = y)) as [<-|Hvy].
        * split; [intros _; right; left; done | done].
        * unfold has_edge. rewrite Hnu. split; [by left|].
          intros [?|[[_ ?]|[? _]]]; [done|congruence|congruence].
      + rewrite dict_get_set_ne by done. fold (has_edge G1 x y). split; [by left|].
        intros [?|[[? _]|[? _]]]; [done|congruence|congruence]. }
  split; [|exact Hedge].
  split; unfold nodes, adjacent; simpl.
  - apply Hwf1.
  - unfold adj1. apply NoDup_dict_keys_set, NoDup_dict_keys_set, Hwf1.
  - intros k. unfold adj1. rewrite !elem_of_dict_keys_set, (wf_adj_node G1 Hwf1).
    apply (wf_adj_node G1 Hwf1) in Hv.
    assert (Hu' : u ∈ nodes G1).
    { apply (wf_adj_node G1 Hwf1), dict_get_is_Some. eauto. }
    unfold nodes in *. split; [intros [->|[->|?]]; done | auto].
  - intros x y. rewrite !Hedge. intros [Hxy|[[-> ->]|[-> ->]]]; [|auto|auto].
    left. by apply (wf_sym G Hwf).
Qed.

(** ** Reading the records *)

Lemma node_entry_inj (r : pyval) (k k' : key) (v v' : pyval) :
  node_entry r k v -> node_entry r k' v' -> k = k' /\ v = v'.
Proof.
  intros (pk & H1 & H2 & H3) (pk' & H1' & H2' & H3'). split; congruence.
Qed.

Lemma edge_ends_inj (e : pyval) (u v u' v' : key) :
  edge_ends e u v -> edge_ends e u' v' -> u = u' /\ v = v'.
Proof.
  intros (a & b & H1 & H2 & H3 & H4) (a' & b' & H1' & H2' & H3' & H4').
  split; congruence.
Qed.

Lemma has_policies_not_skipped (e : pyval) : has_policies e -> skipped e = false.
Proof.
  intros (p1 & p2 & H1 & N1 & H2 & N2). unfold skipped.
  by rewrite H1, H2, N1, N2.
Qed.

Lemma records_inj (j : pyval) (l l' : list pyval) :
  (node_records j l -> node_records j l' -> l = l') /\
  (edge_records j l -> edge_records j l' -> l = l').
Proof.
  split; intros (v & H1 & H2) (v' & H1' & H2'); congruence.
Qed.

Lemma parse_node_Ok (G : Graph) (r : pyval) (k : key) (v : pyval) :
  node_entry r k v -> parse_node G r = Ok (add_node G k [("last_update", v)]).
Proof.
  intros (pk & H1 & H2 & H3). unfold parse_node.
  rewrite H1. simpl. rewrite H3. simpl. by rewrite H2.
Qed.

Lemma parse_node_inv (G G' : Graph) (r : pyval) :
  parse_node G r = Ok G' ->
  exists k v, node_entry r k v /\ G' = add_node G k [("last_update", v)].
Proof.
  unfold parse_node, node_entry. intros H.
  destruct (subscript r "pub_key") as [pk|] eqn:E1; simpl in H; [|discriminate].
  destruct (subscript r "last_update") as [lu|] eqn:E2; simpl in H; [|discriminate].
  destruct (hash_key pk) as [k|] eqn:E3; simpl in H; [|discriminate].
  injection H as <-. eauto 10.
Qed.

Lemma parse_node_wf (G G' : Graph) (r : pyval) :
  wf_graph G -> parse_node G r = Ok G' -> wf_graph G'.
Proof.
  intros Hwf (k & v & _ & ->)%parse_node_inv. by apply wf_add_node.
Qed.

Lemma node_add_node_eq (G : Graph) (k : key) (v : pyval) :
  only_last_update G ->
  dict_get k (_node (add_node G k [("last_update", v)])) = Some [("last_update", v)].
Proof.
  intros Hinv. unfold add_node. destruct (dict_get k (_node G)) as [a|] eqn:Hg; simpl.
  - rewrite dict_get_set_eq. destruct (Hinv k a Hg) as [v0 ->]. reflexivity.
  - by rewrite dict_get_set_eq.
Qed.

Lemma only_last_update_add_node (G : Graph) (k : key) (v : pyval) :
  only_last_update G -> only_last_update (add_node G k [("last_update", v)]).
Proof.
  intros Hinv k' a. destruct (decide (k = k')) as [<-|Hne].
  - rewrite node_add_node_eq by done. intros [= <-]. eauto.
  - rewrite node_add_node_ne by done. apply Hinv.
Qed.

(** The first loop: it keeps the graph well formed, and a node carries the
    [last_update] of the last record that names it. *)
Lemma node_loop_inv (G0 G : Graph) (l : list pyval) :
  wf_graph G0 -> only_last_update G0 ->
  for_each parse_node G0 l = Ok G ->
  wf_graph G /\ only_last_update G.
Proof.
  intros Hwf Hinv. apply (for_each_inv (fun G => wf_graph G /\ only_last_update G)); [|done].
  intros s r s' _ [Hs1 Hs2] (k & v & _ & ->)%parse_node_inv.
  split; [by apply wf_add_node | by apply only_last_update_add_node].
Qed.

Lemma node_loop_last (G0 G : Graph) (l1 l2 : list pyval) (r : pyval) (k : key) (v : pyval) :
  wf_graph G0 -> only_last_update G0 ->
  for_each parse_node G0 (l1 ++ r :: l2) = Ok G ->
  node_entry r k v -> absent_from k l2 ->
  dict_get k (_node G) = Some [("last_update", v)].
Proof.
  intros Hwf Hinv Hrun Hr Habs. rewrite for_each_app in Hrun.
  apply bind_Ok in Hrun as (G1 & Hrun1 & Hrun). simpl in Hrun.
  apply bind_Ok in Hrun as (G2 & Hr2 & Hrun2).
  destruct (node_loop_inv _ _ _ Hwf Hinv Hrun1) as [_ Hinv1].
  rewrite (parse_node_Ok G1 r k v Hr) in Hr2. injection Hr2 as <-.
  revert Hrun2.
  apply (for_each_inv (fun G => dict_get k (_node G) = Some [("last_update", v)]));
    [|by apply node_add_node_eq].
  intros s r' s' Hr' Hs (k' & v' & (pk & Hpk & Hk' & _) & ->)%parse_node_inv.
  rewrite node_add_node_ne; [done|]. intros ->. by apply (Habs r' pk).
Qed.

Lemma node_loop_nodes (G0 G : Graph) (l : list pyval) (k : key) :
  for_each parse_node G0 l = Ok G ->
  k ∈ nodes G <-> k ∈ nodes G0 \/ exists r v, r ∈ l /\ node_entry r k v.
Proof.
  revert G0. induction l as [|r l IH]; intros G0; simpl.
  - intros [= <-]. split; [auto|]. intros [?|(r & v & Hr & _)]; [done|].
    by apply elem_of_nil in Hr.
  - intros (G1 & H1 & H2)%bind_Ok. rewrite (IH _ H2).
    apply parse_node_inv in H1 as (k1 & v1 & He1 & ->). rewrite nodes_add_node.
    split.
    + intros [[->|?]|(r' & v' & Hr' & He')]; [right | by left | right].
      * exists r, v1. split; [left | done].
      * exists r', v'. split; [by right | done].
    + intros [?|(r' & v' & Hr' & He')]; [by left; right|].
      apply elem_of_cons in Hr' as [->|Hr'].
      * left. left. by destruct (node_entry_inj _ _ _ _ _ He1 He').
      * right. eauto.
Qed.

Lemma node_loop_total (G0 : Graph) (l : list pyval) :
  (forall r, r ∈ l -> exists k v, node_entry r k v) ->
  exists G, for_each parse_node G0 l = Ok G.
Proof.
  intros Hl. apply for_each_total. intros s r Hr.
  destruct (Hl r Hr) as (k & v & He). rewrite (parse_node_Ok s r k v He). eauto.
Qed.

Section EdgeLoop.
Variable int_of_str : string -> result Z.

Lemma parse_edge_skipped (G : Graph) (e : pyval) :
  skipped e = true -> parse_edge int_of_str G e = Ok G.
Proof.
  unfold skipped, parse_edge.
  destruct (subscript e "node1_policy") as [p1|]; simpl; [|discriminate].
  destruct (is_none p1); simpl; [done|].
  destruct (subscript e "node2_policy") as [p2|]; simpl; [|discriminate].
  by intros ->.
Qed.

Lemma parse_edge_inv (G G' : Graph) (e : pyval) :
  parse_edge int_of_str G e = Ok G' ->
  (skipped e = true /\ G' = G) \/
  (has_policies e /\ exists u v a, edge_ends e u v /\ add_edge G u v a = Ok G').
Proof.
  unfold parse_edge, skipped, has_policies, edge_ends. intros H.
  destruct (subscript e "node1_policy") as [p1|] eqn:E1; simpl in H; [|discriminate].
  destruct (is_none p1) eqn:N1; [left; by injection H|].
  destruct (subscript e "node2_policy") as [p2|] eqn:E2; simpl in H; [|discriminate].
  destruct (is_none p2) eqn:N2; [left; by injection H|].
  right. split; [eauto 10|].
  repeat match type of H with
  | bind ?m _ = Ok _ =>
      let x := fresh "x" in
      let E := fresh "E" in
      destruct m as [x|] eqn:E; simpl in H; [|discriminate]
  end.
  eauto 12.
Qed.

Lemma add_edge_Ok_inv (G G' : Graph) (u v : key) (a : attrs) :
  wf_graph G -> add_edge G u v a = Ok G' ->
  _node G' = _node (ensure_node (ensure_node G u) v) /\
  wf_graph G' /\
  (forall x y, adjacent G' x y <->
               adjacent G x y \/ (x = u /\ y = v) \/ (x = v /\ y = u)).
Proof.
  intros Hwf Hadd. destruct (add_edge_spec G u v a Hwf) as (G'' & Hadd' & H).
  rewrite Hadd in Hadd'. injection Hadd' as <-. exact H.
Qed.

Lemma parse_edge_wf (G G' : Graph) (e : pyval) :
  wf_graph G -> parse_edge int_of_str G e = Ok G' -> wf_graph G'.
Proof.
  intros Hwf [[_ ->]|(_ & u & v & a & _ & Hadd)]%parse_edge_inv; [done|].
  by apply (add_edge_Ok_inv _ _ _ _ _ Hwf Hadd).
Qed.

(** The second loop never removes an edge and never touches the
    attributes of a node that exists. *)
Lemma parse_edge_adjacent (G G' : Graph) (e : pyval) (x y : key) :
  wf_graph G -> parse_edge int_of_str G e = Ok G' ->
  adjacent G x y -> adjacent G' x y.
Proof.
  intros Hwf [[_ ->]|(_ & u & v & a & _ & Hadd)]%parse_edge_inv; [done|].
  intros Hxy. apply (add_edge_Ok_inv _ _ _ _ _ Hwf Hadd). by left.
Qed.

Lemma parse_edge_node_old (G G' : Graph) (e : pyval) (k : key) (a : attrs) :
  wf_graph G -> parse_edge int_of_str G e = Ok G' ->
  dict_get k (_node G) = Some a -> dict_get k (_node G') = Some a.
Proof.
  intros Hwf [[_ ->]|(_ & u & v & a' & _ & Hadd)]%parse_edge_inv; [done|].
  intros Hk. destruct (add_edge_Ok_inv _ _ _ _ _ Hwf Hadd) as (-> & _).
  by apply node_ensure_node_old, node_ensure_node_old.
Qed.

Lemma edge_loop_inv (G0 G : Graph) (l : list pyval) :
  wf_graph G0 -> for_each (parse_edge int_of_str) G0 l = Ok G ->
  wf_graph G /\
  (forall x y, adjacent G0 x y -> adjacent G x y) /\
  (forall k a, dict_get k (_node G0) = Some a -> dict_get k (_node G) = Some a).
Proof.
  intros Hwf.
  apply (for_each_inv (fun G => wf_graph G /\
    (forall x y, adjacent G0 x y -> adjacent G x y) /\
    (forall k a, dict_get k (_node G0) = Some a -> dict_get k (_node G) = Some a)));
    [|done].
  intros s e s' _ (Hs1 & Hs2 & Hs3) He. split_and!.
  - by apply (parse_edge_wf s s' e).
  - intros x y Hxy. apply (parse_edge_adjacent s s' e); auto.
  - intros k a Hk. apply (parse_edge_node_old s s' e); auto.
Qed.

(** The two loops of [parse_graph_from_json]. *)
Lemma parse_inv (j : pyval) (G : Graph) :
  parse_graph_from_json int_of_str j = Ok G ->
  exists nl el G0,
    node_records j nl /\ edge_records j el /\
    for_each parse_node empty_graph nl = Ok G0 /\
    for_each (parse_edge int_of_str) G0 el = Ok G.
Proof.
  unfold parse_graph_from_json, node_records, edge_records. intros H.
  repeat match type of H with
  | bind ?m _ = Ok _ =>
      let x := fresh "x" in
      let E := fresh "E" in
      destruct m as [x|] eqn:E; simpl in H; [|discriminate]
  end.
  eauto 12.
Qed.

Lemma parse_wf (j : pyval) (G : Graph) :
  parse_graph_from_json int_of_str j = Ok G -> wf_graph G.
Proof.
  intros (nl & el & G0 & _ & _ & Hn & He)%parse_inv.
  destruct (node_loop_inv _ _ _ wf_empty_graph ltac:(by intros k a [=]) Hn) as [Hwf0 _].
  by destruct (edge_loop_inv _ _ _ Hwf0 He).
Qed.
End EdgeLoop.

(** ** What the parser guarantees *)

Lemma bare_ensure_node (G : Graph) (k n : key) : bare k G -> bare k (ensure_node G n).
Proof.
  intros Hb a. unfold ensure_node. destruct (dict_has n (_node G)) eqn:Hh; [apply Hb|].
  simpl. destruct (decide (n = k)) as [->|Hne].
  - rewrite dict_get_set_eq. by intros [= <-].
  - rewrite dict_get_set_ne by done. apply Hb.
Qed.

Lemma bare_is_empty (G : Graph) (k : key) :
  bare k G -> k ∈ nodes G -> dict_get k (_node G) = Some [].
Proof.
  intros Hb Hk. apply dict_get_is_Some in Hk as [a Ha]. by rewrite Ha, (Hb a Ha).
Qed.

Section ParseClaims.
Variable int_of_str : string -> result Z.

Lemma parse_edge_bare (G G' : Graph) (e : pyval) (k : key) :
  wf_graph G -> parse_edge int_of_str G e = Ok G' -> bare k G -> bare k G'.
Proof.
  intros Hwf [[_ ->]|(_ & u & v & a' & _ & Hadd)]%parse_edge_inv; [done|].
  intros Hb. destruct (add_edge_Ok_inv _ _ _ _ _ Hwf Hadd) as (Hn & _).
  unfold bare. rewrite Hn. by apply bare_ensure_node, bare_ensure_node.
Qed.

Lemma edge_loop_bare (G0 G : Graph) (l : list pyval) (k : key) :
  wf_graph G0 -> for_each (parse_edge int_of_str) G0 l = Ok G ->
  bare k G0 -> bare k G.
Proof.
  intros Hwf Hrun Hb.
  cut (wf_graph G /\ bare k G); [tauto|]. revert Hrun.
  apply (for_each_inv (fun G => wf_graph G /\ bare k G)); [|done].
  intros s e s' _ [Hs1 Hs2] He. split.
  - by apply (parse_edge_wf int_of_str s s' e).
  - by apply (parse_edge_bare s s' e).
Qed.

(** An edge record with its two policies, once the loop is past it, has
    put its edge and its two endpoints into the graph. *)
Lemma edge_loop_inserts (G0 G : Graph) (l : list pyval) (e : pyval) (u v : key) :
  wf_graph G0 -> for_each (parse_edge int_of_str) G0 l = Ok G ->
  e ∈ l -> has_policies e -> edge_ends e u v ->
  wf_graph G /\ adjacent G u v /\ adjacent G v u /\
  (bare u G0 -> dict_get u (_node G) = Some []) /\
  (bare v G0 -> dict_get v (_node G) = Some []).
Proof.
  intros Hwf Hrun (l1 & l2 & ->)%list_elem_of_split Hpol Hends.
  rewrite for_each_app in Hrun. apply bind_Ok in Hrun as (G1 & Hrun1 & Hrun).
  simpl in Hrun. apply bind_Ok in Hrun as (G2 & He & Hrun2).
  destruct (edge_loop_inv _ _ _ _ Hwf Hrun1) as (Hwf1 & _ & _).
  pose proof (parse_edge_wf _ _ _ _ Hwf1 He) as Hwf2.
  destruct (edge_loop_inv _ _ _ _ Hwf2 Hrun2) as (HwfG & Hadj & Hold).
  apply parse_edge_inv in He as [[Hs _]|(_ & u' & v' & a & Hends' & Hadd)].
  { by rewrite (has_policies_not_skipped e Hpol) in Hs. }
  destruct (edge_ends_inj _ _ _ _ _ Hends Hends') as [<- <-].
  destruct (add_edge_Ok_inv _ _ _ _ _ Hwf1 Hadd) as (Hn & _ & Hnew).
  assert (Hin : forall k, bare k G0 -> k ∈ nodes G2 -> dict_get k (_node G) = Some []).
  { intros k Hb Hk. apply Hold. apply bare_is_empty; [|done].
    unfold bare. rewrite Hn. apply bare_ensure_node, bare_ensure_node.
    by apply (edge_loop_bare G0 G1 l1). }
  split_and!; [done| | | |].
  - apply Hadj, Hnew. auto.
  - apply Hadj, Hnew. auto.
  - intros Hb. apply Hin; [done|]. unfold nodes. rewrite Hn.
    apply nodes_ensure_node. right. apply nodes_ensure_node. by left.
  - intros Hb. apply Hin; [done|]. unfold nodes. rewrite Hn.
    apply nodes_ensure_node. by left.
Qed.

Lemma absent_not_node (G : Graph) (l : list pyval) (k : key) :
  for_each parse_node empty_graph l = Ok G -> absent_from k l -> bare k G.
Proof.
  intros Hrun Habs a Ha.
  assert (Hk : k ∈ nodes G) by (apply dict_get_is_Some; eauto).
  apply (node_loop_nodes _ _ _ _ Hrun) in Hk as [Hk|(r & v & Hr & pk & H1 & H2 & _)].
  - by apply elem_of_nil in Hk.
  - by destruct (Habs r pk Hr H1).
Qed.

(** C5. When node records repeat a [pub_key], the graph that
    [parse_graph_from_json] returns has that identity once: the node
    list has no duplicate, every identity of a node record is a node, and
    the attribute dict of a node is the [last_update] of the last record
    that names it. *)
Theorem node_identity_unique (json_graph : pyval) (G : Graph) (l : list pyval) :
  parse_graph_from_json int_of_str json_graph = Ok G ->
  node_records json_graph l ->
  NoDup (nodes G) /\
  (forall r k v, r ∈ l -> node_entry r k v -> k ∈ nodes G) /\
  (forall l1 r l2 k v,
      l = l1 ++ r :: l2 -> node_entry r k v -> absent_from k l2 ->
      dict_get k (_node G) = Some [("last_update", v)]).
Proof.
  intros Hparse Hl. pose proof (parse_wf _ _ _ Hparse) as HwfG.
  apply parse_inv in Hparse as (nl & el & G0 & Hnl & _ & Hn & He).
  destruct (records_inj json_graph l nl) as [Heq _]. rewrite <- (Heq Hl Hnl) in Hn.
  assert (Hempty : only_last_update empty_graph) by (by intros k a [=]).
  destruct (node_loop_inv _ _ _ wf_empty_graph Hempty Hn) as [Hwf0 _].
  destruct (edge_loop_inv _ _ _ _ Hwf0 He) as (_ & _ & Hold).
  split_and!.
  - apply HwfG.
  - intros r k v Hr Hentry.
    assert (Hk : k ∈ nodes G0) by (apply (node_loop_nodes _ _ _ _ Hn); eauto).
    apply dict_get_is_Some in Hk as [a Ha]. apply dict_get_is_Some. eauto.
  - intros l1 r l2 k v -> Hentry Habs. apply Hold.
    apply (node_loop_last empty_graph G0 l1 l2 r); auto using wf_empty_graph.
Qed.

(** C9. The [last_update] of a node record is stored as it is, whatever
    its type: when every node record has a hashable [pub_key] and a
    [last_update] (and there is no edge record),
    [parse_graph_from_json] returns a graph, in which a node carries
    the very value of the last record that names it.  Nothing is asked
    of that value: [int] is not applied to it. *)
Theorem node_last_update_verbatim (json_graph : pyval) (l : list pyval) :
  node_records json_graph l -> edge_records json_graph [] ->
  (forall r, r ∈ l -> exists k v, node_entry r k v) ->
  exists G,
    parse_graph_from_json int_of_str json_graph = Ok G /\
    (forall l1 r l2 k v,
        l = l1 ++ r :: l2 -> node_entry r k v -> absent_from k l2 ->
        dict_get k (_node G) = Some [("last_update", v)]).
Proof.
  intros (vn & Hn1 & Hn2) (ve & He1 & He2) Hl.
  destruct (node_loop_total empty_graph l Hl) as [G HG]. exists G. split.
  - unfold parse_graph_from_json. rewrite Hn1. simpl. rewrite Hn2. simpl.
    rewrite HG. simpl. rewrite He1. simpl. by rewrite He2.
  - intros l1 r l2 k v -> Hentry Habs.
    apply (node_loop_last empty_graph G l1 l2 r); auto using wf_empty_graph.
    by intros k' a [=].
Qed.

(** C7. An edge record with its two policies is inserted even when an
    endpoint is named by no node record: the edge is in the graph, in
    both directions, and such an endpoint is a node whose attribute dict
    is empty. *)
Theorem dangling_endpoint_is_bare_node
    (json_graph : pyval) (G : Graph) (nl el : list pyval) (e : pyval) (u v : key) :
  parse_graph_from_json int_of_str json_graph = Ok G ->
  node_records json_graph nl -> edge_records json_graph el ->
  e ∈ el -> has_policies e -> edge_ends e u v ->
  adjacent G u v /\ adjacent G v u /\
  (absent_from u nl -> dict_get u (_node G) = Some []) /\
  (absent_from v nl -> dict_get v (_node G) = Some []).
Proof.
  intros Hparse Hnl Hel He Hpol Hends.
  apply parse_inv in Hparse as (nl' & el' & G0 & Hnl' & Hel' & Hn & Hrun).
  destruct (records_inj json_graph nl nl') as [Heq1 _].
  destruct (records_inj json_graph el el') as [_ Heq2].
  rewrite <- (Heq1 Hnl Hnl') in Hn. rewrite <- (Heq2 Hel Hel') in Hrun.
  assert (Hempty : only_last_update empty_graph) by (by intros k a [=]).
  destruct (node_loop_inv _ _ _ wf_empty_graph Hempty Hn) as [Hwf0 _].
  destruct (edge_loop_inserts G0 G el e u v Hwf0 Hrun He Hpol Hends)
    as (_ & H1 & H2 & H3 & H4).
  split_and!; [done|done| |].
  - intros Habs. apply H3. by apply (absent_not_node G0 nl).
  - intros Habs. apply H4. by apply (absent_not_node G0 nl).
Qed.

(** The second loop run on a list and on the list without the records
    it passes over. *)
Lemma edge_loop_filter (G : Graph) (es : list pyval) :
  for_each (parse_edge int_of_str) G es =
  for_each (parse_edge int_of_str) G (filter (fun e => skipped e = false) es).
Proof.
  revert G. induction es as [|e es IH]; intros G; [reflexivity|].
  rewrite filter_cons. destruct (decide (skipped e = false)) as [Hs|Hs].
  - simpl. destruct (parse_edge int_of_str G e); simpl; [apply IH | reflexivity].
  - apply not_false_is_true in Hs. simpl.
    rewrite (parse_edge_skipped int_of_str G e Hs). simpl. apply IH.
Qed.
End ParseClaims.

Section Coercion.
Variable int_of_str : string -> result Z.

(** One field that [int] rejects is enough for the body of the second
    loop to raise, whatever the graph built so far. *)
Lemma parse_edge_raises (G : Graph) (e : pyval) (path : option string * string) (x : pyval) :
  has_policies e -> path ∈ int_paths -> field_at e path = Ok x ->
  raises (py_int int_of_str x) ->
  raises (parse_edge int_of_str G e).
Proof.
  intros (p1 & p2 & H1 & N1 & H2 & N2) Hpath Hf Hx.
  unfold parse_edge. rewrite H1. simpl. rewrite N1, H2. simpl. rewrite N2.
  unfold int_paths in Hpath.
  repeat (apply elem_of_cons in Hpath as [->|Hpath]);
    [..|by apply elem_of_nil in Hpath];
    unfold field_at in Hf; simpl in Hf; rewrite ?H1, ?H2 in Hf; simpl in Hf;
    repeat first
      [ apply raises_bind_l; unfold policy_field, int_field;
        rewrite ?H1, ?H2; simpl; rewrite Hf; simpl;
        apply raises_bind_l; exact Hx
      | apply raises_bind_r; intros ? ].
Qed.

(** C8. In an edge record that has its two policies, a value that [int]
    rejects in one of the ten fields passed to [int] makes
    [parse_graph_from_json] raise; [main] then ends with that exception
    and has not called [nx.write_gexf]. *)
Theorem non_numeric_field_aborts
    (json_graph : pyval) (el : list pyval) (e : pyval)
    (path : option string * string) (x : pyval) :
  edge_records json_graph el -> e ∈ el -> has_policies e ->
  path ∈ int_paths -> field_at e path = Ok x ->
  raises (py_int int_of_str x) ->
  raises (parse_graph_from_json int_of_str json_graph) /\
  (forall isolated connected,
      exists err,
        parse_graph_from_json int_of_str json_graph = Raise err /\
        main int_of_str isolated connected json_graph = ([], Raise err)).
Proof.
  intros (ve & He1 & He2) He Hpol Hpath Hf Hx.
  assert (Hraise : raises (parse_graph_from_json int_of_str json_graph)).
  { unfold parse_graph_from_json.
    apply raises_bind_r; intros node_records.
    apply raises_bind_r; intros node_list.
    apply raises_bind_r; intros graph.
    rewrite He1. simpl. rewrite He2. simpl.
    apply (for_each_raises _ el e He). intros s.
    by apply (parse_edge_raises s e path x). }
  split; [exact Hraise|]. intros isolated connected.
  destruct Hraise as [err Herr]. exists err. split; [exact Herr|].
  unfold main, main_graph. rewrite Herr. reflexivity.
Qed.
End Coercion.

(** C4 (as amended). An edge record whose [node1_policy] is [None], or
    whose [node1_policy] is not [None] and whose [node2_policy] is
    [None], is passed over: the loop body returns the graph as it got it
    and does not raise, so the parser gives the same result with and
    without these records, however many there are.  Nine channels and one
    such record make a graph of nine edges. *)
Theorem null_policy_records_are_skipped (int_of_str : string -> result Z) :
  (forall G e, skipped e = true -> parse_edge int_of_str G e = Ok G) /\
  (forall ns es,
      parse_graph_from_json int_of_str (document ns (PList es)) =
      parse_graph_from_json int_of_str
        (document ns (PList (filter (fun e => skipped e = false) es)))) /\
  (let! G := parse_graph_from_json int_of_digits
               (document (PList []) (PList nine_and_null)) in
   Ok (number_of_edges G)) = Ok 9%nat.
Proof.
  split_and!.
  - apply parse_edge_skipped.
  - intros ns es. unfold parse_graph_from_json, document, subscript. simpl.
    destruct (py_iter ns) as [nl|]; simpl; [|reflexivity].
    destruct (for_each parse_node empty_graph nl) as [G|]; simpl; [|reflexivity].
    apply edge_loop_filter.
  - vm_compute. reflexivity.
Qed.

Lemma null_policy_records_are_skipped_witness :
  skipped (edge_record "a" "j" PNone policy_record) = true /\
  parse_edge int_of_digits empty_graph (edge_record "a" "j" PNone policy_record)
  = Ok empty_graph.
Proof.
  split; [reflexivity|].
  apply (proj1 (null_policy_records_are_skipped int_of_digits)). reflexivity.
Defined.

(** C4, as first stated, fails on a record from which a policy key is
    missing: [edge['node1_policy']] raises [KeyError], and so does the
    parser. *)
Lemma missing_policy_key_raises :
  parse_edge int_of_digits empty_graph edge_without_policy_key = Raise KeyError /\
  parse_graph_from_json int_of_digits
    (document (PList []) (PList [edge_without_policy_key])) = Raise KeyError.
Proof. split; reflexivity. Qed.

Lemma node_identity_unique_witness :
  parse_graph_from_json int_of_digits (document (PList duplicate_nodes) (PList []))
  = Ok (graph_of (document (PList duplicate_nodes) (PList []))) /\
  nodes (graph_of (document (PList duplicate_nodes) (PList []))) = [KStr "a"; KStr "b"] /\
  dict_get (KStr "a") (_node (graph_of (document (PList duplicate_nodes) (PList []))))
  = Some [("last_update", PStr "later")].
Proof.
  split; [reflexivity|]. split; [reflexivity|].
  refine (proj2 (proj2 (node_identity_unique int_of_digits
            (document (PList duplicate_nodes) (PList []))
            (graph_of (document (PList duplicate_nodes) (PList [])))
            duplicate_nodes _ _))
          [node_record "a" (PInt 1); node_record "b" (PInt 2)]
          (node_record "a" (PStr "later")) [] (KStr "a") (PStr "later") _ _ _).
  - reflexivity.
  - exists (PList duplicate_nodes). split; reflexivity.
  - reflexivity.
  - exists (PStr "a"). split_and!; reflexivity.
  - intros node pub_key Hin. by apply elem_of_nil in Hin.
Defined.

Lemma node_last_update_verbatim_witness :
  exists G,
    parse_graph_from_json int_of_digits (document (PList string_last_update) (PList []))
    = Ok G /\
    dict_get (KStr "a") (_node G) = Some [("last_update", PStr "yesterday")].
Proof.
  destruct (node_last_update_verbatim int_of_digits
              (document (PList string_last_update) (PList [])) string_last_update)
    as (G & HG & Hlast).
  - exists (PList string_last_update). split; reflexivity.
  - exists (PList []). split; reflexivity.
  - intros r Hr. unfold string_last_update in Hr.
    repeat (apply elem_of_cons in Hr as [->|Hr]); [..|by apply elem_of_nil in Hr].
    + exists (KStr "a"), (PStr "yesterday"), (PStr "a"). split_and!; reflexivity.
    + exists (KStr "b"), (PList []), (PStr "b"). split_and!; reflexivity.
  - exists G. split; [exact HG|].
    apply (Hlast [] (node_record "a" (PStr "yesterday")) [node_record "b" (PList [])]).
    + reflexivity.
    + exists (PStr "a"). split_and!; reflexivity.
    + intros node pub_key Hin Hpk.
      apply list_elem_of_singleton in Hin as ->. injection Hpk as <-. discriminate.
Defined.

Lemma dangling_endpoint_is_bare_node_witness :
  adjacent (graph_of dangling_edge) (KStr "a") (KStr "z") /\
  dict_get (KStr "z") (_node (graph_of dangling_edge)) = Some [].
Proof.
  destruct (dangling_endpoint_is_bare_node int_of_digits dangling_edge
              (graph_of dangling_edge) [node_record "a" (PInt 1)] [channel "a" "z"]
              (channel "a" "z") (KStr "a") (KStr "z")) as (H1 & _ & _ & H4).
  - reflexivity.
  - eexists. split; reflexivity.
  - eexists. split; reflexivity.
  - left.
  - exists policy_record, policy_record. split_and!; reflexivity.
  - exists (PStr "a"), (PStr "z"). split_and!; reflexivity.
  - split; [exact H1|]. apply H4.
    intros node pub_key Hin Hpk.
    apply list_elem_of_singleton in Hin as ->. injection Hpk as <-. discriminate.
Defined.

Lemma non_numeric_field_aborts_witness :
  raises (py_int int_of_digits (PStr "12x")) /\
  main int_of_digits true true bad_capacity = ([], Raise ValueError).
Proof.
  assert (Hx : raises (py_int int_of_digits (PStr "12x"))) by (by exists ValueError).
  split; [exact Hx|].
  destruct (non_numeric_field_aborts int_of_digits bad_capacity
              [channel "a" "b"; bad_capacity_edge] bad_capacity_edge
              (None, "capacity") (PStr "12x")) as [_ H].
  - eexists. split; reflexivity.
  - right. left.
  - exists policy_record, policy_record. split_and!; reflexivity.
  - left.
  - reflexivity.
  - exact Hx.
  - destruct (H true true) as (err & Herr & Hmain).
    vm_compute in Herr. injection Herr as <-. exact Hmain.
Defined.

(** ** Removing the isolated nodes *)

Lemma filter_all {A : Type} (P : A -> Prop) `{forall x, Decision (P x)} (l : list A) :
  (forall x, x ∈ l -> P x) -> filter P l = l.
Proof.
  induction l as [|x l IH]; intros Hl; [reflexivity|].
  rewrite filter_cons_True by (apply Hl; left).
  rewrite IH; [reflexivity|]. intros y Hy. apply Hl. by right.
Qed.

Lemma filter_none {A : Type} (P : A -> Prop) `{forall x, Decision (P x)} (l : list A) :
  (forall x, x ∈ l -> ~ P x) -> filter P l = [].
Proof.
  induction l as [|x l IH]; intros Hl; [reflexivity|].
  rewrite filter_cons_False by (apply Hl; left).
  apply IH. intros y Hy. apply Hl. by right.
Qed.

Lemma NoDup_dict_keys_filter {K V : Type} (P : K * V -> Prop) `{forall x, Decision (P x)}
    (d : list (K * V)) :
  NoDup (dict_keys d) -> NoDup (dict_keys (filter P d)).
Proof.
  unfold dict_keys. induction d as [|[k v] d IH]; simpl; [done|].
  intros [Hk Hnd]%NoDup_cons. rewrite filter_cons.
  destruct (decide (P (k, v))); simpl; [|auto].
  apply NoDup_cons. split; [|auto]. intros Hin. apply Hk.
  apply elem_of_dict_keys in Hin as [v' Hv'].
  apply list_elem_of_filter in Hv' as [_ Hv']. apply elem_of_dict_keys. eauto.
Qed.

Lemma dict_get_without {K V : Type} `{EqDecision K} (ns : list K) (k : K)
    (d : list (K * V)) :
  k ∉ ns -> dict_get k (filter (fun kv => fst kv ∉ ns) d) = dict_get k d.
Proof.
  intros Hk. induction d as [|[k' v'] d IH]; [reflexivity|].
  rewrite filter_cons. simpl. destruct (decide (k = k')) as [<-|Hne].
  - rewrite decide_True by done. simpl. by rewrite decide_True.
  - destruct (decide (k' ∉ ns)); simpl; [by rewrite decide_False|done].
Qed.

Lemma degree_of_zero (n : key) (nbrs : list (key * attrs)) :
  degree_of n nbrs = 0%nat <-> nbrs = [].
Proof.
  unfold degree_of. split.
  - intros Hd. destruct nbrs; [reflexivity | simpl in Hd; lia].
  - intros ->. reflexivity.
Qed.

(** A node is isolated when its neighbour dict is empty. *)
Lemma isolates_spec (G : Graph) (n : key) :
  NoDup (dict_keys (_adj G)) ->
  n ∈ isolates G <-> dict_get n (_adj G) = Some [].
Proof.
  intros Hnd. unfold isolates. rewrite elem_of_dict_keys. split.
  - intros [nbrs Hin]. apply list_elem_of_filter in Hin as [Hd Hin]. simpl in Hd.
    apply degree_of_zero in Hd as ->. by apply dict_get_elem_NoDup.
  - intros Hg. exists []. apply list_elem_of_filter. split; [reflexivity|].
    by apply dict_get_Some_elem.
Qed.

Lemma NoDup_isolates (G : Graph) : NoDup (dict_keys (_adj G)) -> NoDup (isolates G).
Proof. apply NoDup_dict_keys_filter. Qed.

(** Removing a node that has no neighbour deletes its two entries. *)
Lemma remove_node_try_isolated (G : Graph) (n : key) :
  dict_get n (_adj G) = Some [] -> n ∈ nodes G ->
  remove_node_try G n =
  {| _node := dict_del n (_node G); _adj := dict_del n (_adj G) |}.
Proof.
  intros Hadj Hn. apply dict_get_is_Some in Hn as [a Ha].
  unfold remove_node_try. by rewrite Ha, Hadj.
Qed.

Lemma remove_isolated_nodes (ns : list key) (G : Graph) :
  NoDup ns ->
  (forall n, n ∈ ns -> dict_get n (_adj G) = Some [] /\ n ∈ nodes G) ->
  remove_nodes_from G ns =
  {| _node := filter (fun kv => fst kv ∉ ns) (_node G);
     _adj := filter (fun kv => fst kv ∉ ns) (_adj G) |}.
Proof.
  unfold remove_nodes_from. revert G. induction ns as [|n ns IH]; intros G Hnd Hns.
  - simpl. rewrite !filter_all; [by destruct G| |]; intros x _; apply not_elem_of_nil.
  - apply NoDup_cons in Hnd as [Hn Hnd]. simpl.
    destruct (Hns n) as [Hadj Hnode]; [left|].
    rewrite (remove_node_try_isolated G n Hadj Hnode). rewrite IH; [|done|].
    + simpl. rewrite !dict_del_filter, !list_filter_filter. f_equal.
      * apply list_filter_iff. intros x. rewrite not_elem_of_cons. tauto.
      * apply list_filter_iff. intros x. rewrite not_elem_of_cons. tauto.
    + intros n' Hn'. destruct (Hns n') as [Hadj' Hnode']; [by right|].
      assert (Hne : n <> n') by (by intros ->). simpl. split.
      * by rewrite dict_get_del_ne.
      * apply elem_of_dict_keys_del. auto.
Qed.

(** On a well-formed graph [clean_isolated_nodes] keeps, in both
    dictionaries, the entries of the nodes that have a neighbour. *)
Lemma clean_spec (G : Graph) :
  wf_graph G ->
  clean_isolated_nodes G =
  {| _node := filter (fun kv => fst kv ∉ isolates G) (_node G);
     _adj := filter (fun kv => fst kv ∉ isolates G) (_adj G) |}.
Proof.
  intros Hwf. unfold clean_isolated_nodes. apply remove_isolated_nodes.
  - apply NoDup_isolates, Hwf.
  - intros n Hn. pose proof Hn as Hn'.
    apply isolates_spec in Hn; [|apply Hwf]. split; [done|].
    apply (wf_adj_node G Hwf), dict_get_is_Some. eauto.
Qed.

Lemma isolates_clean (G : Graph) :
  wf_graph G -> isolates (clean_isolated_nodes G) = [].
Proof.
  intros Hwf. rewrite (clean_spec G Hwf). unfold isolates at 1. simpl.
  rewrite filter_none; [reflexivity|].
  intros [k nbrs] Hin Hd. simpl in Hd.
  apply list_elem_of_filter in Hin as [Hk Hin]. simpl in Hk. apply Hk.
  unfold isolates. apply elem_of_dict_keys. exists nbrs.
  by apply list_elem_of_filter.
Qed.

(** C6. [clean_isolated_nodes] applied to a graph it has already cleaned
    changes nothing: the two dictionaries, hence the node set and the edge
    set, are those of the first application. *)
Theorem clean_isolated_nodes_idempotent (G : Graph) :
  wf_graph G ->
  clean_isolated_nodes (clean_isolated_nodes G) = clean_isolated_nodes G.
Proof.
  intros Hwf. unfold clean_isolated_nodes at 1.
  by rewrite (isolates_clean G Hwf).
Qed.

Lemma clean_isolated_nodes_idempotent_witness :
  nodes (clean_isolated_nodes (graph_of one_isolated)) = [KStr "a"; KStr "b"] /\
  clean_isolated_nodes (clean_isolated_nodes (graph_of one_isolated))
  = clean_isolated_nodes (graph_of one_isolated).
Proof.
  split; [reflexivity|].
  apply clean_isolated_nodes_idempotent.
  apply (parse_wf int_of_digits one_isolated). reflexivity.
Defined.

(** C10. An edge record with its two policies whose endpoints are the
    same node puts a self-loop into the graph; the node then has a
    degree of at least two, is not among the isolated nodes, and is
    still there, with its loop, after [clean_isolated_nodes]. *)
Theorem self_loop_is_not_isolated
    (int_of_str : string -> result Z) (json_graph : pyval) (G : Graph)
    (el : list pyval) (e : pyval) (u : key) :
  parse_graph_from_json int_of_str json_graph = Ok G ->
  edge_records json_graph el -> e ∈ el -> has_policies e -> edge_ends e u u ->
  adjacent G u u /\
  (exists nbrs, dict_get u (_adj G) = Some nbrs /\ (2 <= degree_of u nbrs)%nat) /\
  (u ∉ isolates G) /\
  (u ∈ nodes (clean_isolated_nodes G)) /\
  adjacent (clean_isolated_nodes G) u u.
Proof.
  intros Hparse Hel He Hpol Hends. pose proof (parse_wf _ _ _ Hparse) as Hwf.
  apply parse_inv in Hparse as (nl & el' & G0 & _ & Hel' & Hn & Hrun).
  destruct (records_inj json_graph el el') as [_ Heq].
  rewrite <- (Heq Hel Hel') in Hrun.
  assert (Hempty : only_last_update empty_graph) by (by intros k a [=]).
  destruct (node_loop_inv _ _ _ wf_empty_graph Hempty Hn) as [Hwf0 _].
  destruct (edge_loop_inserts int_of_str G0 G el e u u Hwf0 Hrun He Hpol Hends)
    as (_ & Hloop & _).
  pose proof Hloop as (nbrs & Hg & Hu)%adjacent_iff.
  assert (Hiso : u ∉ isolates G).
  { intros Hin. apply isolates_spec in Hin; [|apply Hwf].
    rewrite Hg in Hin. injection Hin as ->. by apply elem_of_nil in Hu. }
  split_and!; [done| |done| |].
  - exists nbrs. split; [done|]. unfold degree_of.
    apply dict_has_true in Hu. rewrite Hu. destruct nbrs; [discriminate|simpl; lia].
  - rewrite (clean_spec G Hwf). unfold nodes. simpl.
    assert (Hnode : u ∈ nodes G).
    { apply (wf_adj_node G Hwf), dict_get_is_Some. eauto. }
    apply elem_of_dict_keys in Hnode as [a Ha]. apply elem_of_dict_keys.
    exists a. by apply list_elem_of_filter.
  - rewrite (clean_spec G Hwf). unfold adjacent, has_edge. simpl.
    rewrite dict_get_without by done. rewrite Hg. by apply dict_has_true.
Qed.

Lemma self_loop_is_not_isolated_witness :
  nodes (graph_of self_loop) = [KStr "a"; KStr "b"] /\
  isolates (graph_of self_loop) = [KStr "b"] /\
  KStr "a" ∈ nodes (clean_isolated_nodes (graph_of self_loop)).
Proof.
  split; [reflexivity|]. split; [reflexivity|].
  destruct (self_loop_is_not_isolated int_of_digits self_loop (graph_of self_loop)
              [channel "a" "a"] (channel "a" "a") (KStr "a")) as (_ & _ & _ & H & _).
  - reflexivity.
  - eexists. split; reflexivity.
  - left.
  - exists policy_record, policy_record. split_and!; reflexivity.
  - exists (PStr "a"), (PStr "a"). split_and!; reflexivity.
  - exact H.
Defined.

(** ** Breadth-first search *)

Lemma reach_sym (G : Graph) (u v : key) :
  wf_graph G -> reach G u v -> reach G v u.
Proof.
  intros Hwf. unfold reach. revert v. apply rtc_ind_r; [apply rtc_refl|].
  intros y z _ Hyz IH. apply rtc_l with y; [|done]. by apply (wf_sym G Hwf).
Qed.

Lemma reach_nodes (G : Graph) (u v : key) :
  wf_graph G -> u ∈ nodes G -> reach G u v -> v ∈ nodes G.
Proof.
  intros Hwf Hu. unfold reach. revert v. apply rtc_ind_r; [done|].
  intros y z _ Hyz _. by destruct (wf_adjacent_nodes G y z Hwf Hyz).
Qed.

Lemma NoDup_incl_length (l k : list key) :
  NoDup l -> (forall x, x ∈ l -> x ∈ k) -> (length l <= length k)%nat.
Proof. intros Hnd Hin. by apply submseteq_length, NoDup_submseteq. Qed.

Lemma bfs_while_nil (fuel : nat) (adj : list (key * list (key * attrs))) (seen : list key) :
  bfs_while fuel adj seen [] = Ok seen.
Proof. by destruct fuel. Qed.

Section Bfs.
Variable G : Graph.
Hypothesis Hwf : wf_graph G.

Lemma neighbours_adjacent (v y : key) (nbrs : list (key * attrs)) :
  dict_get v (_adj G) = Some nbrs -> y ∈ dict_keys nbrs <-> adjacent G v y.
Proof.
  intros Hg. rewrite adjacent_iff, Hg. split; [eauto|].
  by intros (? & [= <-] & ?).
Qed.

Lemma adjacent_target_in_adj (v y : key) : adjacent G v y -> y ∈ dict_keys (_adj G).
Proof. intros Hvy. apply adjacent_in_adj with v. by apply (wf_sym G Hwf). Qed.

(** One pass of [for v in thislevel]: every node of the level is seen
    afterwards, and [nextlevel] has gained the neighbours of those that
    were not seen before. *)
Lemma bfs_level_spec (this seen next : list key) :
  (forall v, v ∈ this -> v ∈ dict_keys (_adj G)) -> NoDup seen ->
  exists seen' next',
    bfs_level (_adj G) this seen next = Ok (seen', next') /\
    NoDup seen' /\
    (forall x, x ∈ seen' <-> x ∈ seen \/ x ∈ this) /\
    (forall y, y ∈ next' <->
               y ∈ next \/ exists v, v ∈ this /\ (v ∉ seen) /\ adjacent G v y).
Proof.
  revert seen next. induction this as [|v rest IH]; intros seen next Hthis Hnd.
  - exists seen, next. split; [done|]. split; [done|]. split.
    + intros x. rewrite elem_of_nil. tauto.
    + intros y. split; [auto|]. intros [?|(v & Hv & _)]; [done|].
      by apply elem_of_nil in Hv.
  - assert (Hrest : forall w, w ∈ rest -> w ∈ dict_keys (_adj G)).
    { intros w Hw. apply Hthis. by right. }
    simpl. destruct (decide (v ∈ seen)) as [Hv|Hv].
    + destruct (IH seen next Hrest Hnd) as (seen' & next' & Hrun & Hnd' & Hs & Hn).
      exists seen', next'. split_and!; [done|done| |].
      * intros x. rewrite Hs, elem_of_cons. split; [tauto|].
        intros [?|[->|?]]; auto.
      * intros y. rewrite Hn. split.
        -- intros [?|(w & Hw & Hw' & Hwy)]; [by left|]. right. exists w.
           split; [by right | done].
        -- intros [?|(w & Hw & Hw' & Hwy)]; [by left|]. right. exists w.
           apply elem_of_cons in Hw as [->|Hw]; [done | done].
    + assert (Hvadj : v ∈ dict_keys (_adj G)) by (apply Hthis; left).
      apply dict_get_is_Some in Hvadj as [nbrs Hg]. rewrite Hg.
      assert (Hnd1 : NoDup (v :: seen)) by (by apply NoDup_cons).
      destruct (IH (v :: seen) (list_union next (dict_keys nbrs)) Hrest Hnd1)
        as (seen' & next' & Hrun & Hnd' & Hs & Hn).
      exists seen', next'. split_and!; [done|done| |].
      * intros x. rewrite Hs, !elem_of_cons. tauto.
      * intros y. rewrite Hn, list_elem_of_union, (neighbours_adjacent v y nbrs Hg).
        split.
        -- intros [[?|Hvy]|(w & Hw & Hw' & Hwy)]; [by left| |].
           ++ right. exists v. split; [left | done].
           ++ right. exists w. apply not_elem_of_cons in Hw' as [_ Hw'].
              split; [by right | done].
        -- intros [?|(w & Hw & Hw' & Hwy)]; [by left; left|].
           destruct (decide (w = v)) as [->|Hne]; [by left; right|].
           right. exists w. apply elem_of_cons in Hw as [->|Hw]; [done|].
           split; [done|]. split; [|done]. by apply not_elem_of_cons.
Qed.

(** A pass over the level keeps the invariant of the [while] loop. *)
Lemma bfs_level_inv (source : key) (seen next seen' next' : list key) :
  bfs_inv G source seen next ->
  NoDup seen' ->
  (forall x, x ∈ seen' <-> x ∈ seen \/ x ∈ next) ->
  (forall y, y ∈ next' <-> exists v, v ∈ next /\ (v ∉ seen) /\ adjacent G v y) ->
  bfs_inv G source seen' next'.
Proof.
  intros [I1 I2 I3 I4 I5 I6] Hnd Hs Hn. split.
  - done.
  - intros x [?|?]%Hs; auto.
  - intros y (v & _ & _ & Hvy)%Hn. by apply adjacent_target_in_adj with v.
  - intros x [Hx%Hs|(v & Hv & _ & Hvy)%Hn]; [by apply I4|].
    apply rtc_r with v; [apply I4; by right | done].
  - intros x y [Hx|Hx]%Hs Hxy.
    + destruct (I5 x y Hx Hxy); left; apply Hs; auto.
    + destruct (decide (x ∈ seen)) as [Hx'|Hx'].
      * destruct (I5 x y Hx' Hxy); left; apply Hs; auto.
      * right. apply Hn. eauto.
  - left. apply Hs. done.
Qed.

(** When the loop ends, [seen] is what can be reached from [source]. *)
Lemma bfs_inv_done (source : key) (seen : list key) (x : key) :
  bfs_inv G source seen [] -> x ∈ seen <-> reach G source x.
Proof.
  intros [I1 I2 I3 I4 I5 I6]. split; [intros Hx; apply I4; by left|].
  assert (Hsrc : source ∈ seen).
  { destruct I6 as [?|Hnil]; [done | by apply elem_of_nil in Hnil]. }
  unfold reach. revert x. apply rtc_ind_r; [done|].
  intros y z _ Hyz Hy. destruct (I5 y z Hy Hyz) as [?|Hnil]; [done|].
  by apply elem_of_nil in Hnil.
Qed.

(** The [while] loop ends before its fuel does, provided there is one unit
    of fuel for each node not seen yet, and one more. *)
Lemma bfs_while_spec (source : key) (fuel : nat) (seen next : list key) :
  bfs_inv G source seen next ->
  (length (_adj G) < fuel + length seen)%nat ->
  exists c,
    bfs_while fuel (_adj G) seen next = Ok c /\
    NoDup c /\ (forall x, x ∈ c <-> reach G source x).
Proof.
  revert seen next. induction fuel as [|fuel IH]; intros seen next Hinv Hlen.
  - exfalso. pose proof (NoDup_incl_length seen (dict_keys (_adj G))
      (bfs_seen_nodup _ _ _ _ Hinv) (bfs_seen_adj _ _ _ _ Hinv)) as Hle.
    rewrite length_dict_keys in Hle. simpl in Hlen. lia.
  - destruct next as [|n next0].
    { exists seen. split; [done|]. split; [apply Hinv|].
      intros x. by apply bfs_inv_done. }
    remember (n :: next0) as next eqn:Hnext.
    destruct (bfs_level_spec next seen [] (bfs_next_adj _ _ _ _ Hinv)
                (bfs_seen_nodup _ _ _ _ Hinv))
      as (seen' & next' & Hrun & Hnd' & Hs & Hn).
    assert (Hn' : forall y, y ∈ next' <->
              exists v, v ∈ next /\ (v ∉ seen) /\ adjacent G v y).
    { intros y. rewrite Hn, elem_of_nil. tauto. }
    pose proof (bfs_level_inv source seen next seen' next' Hinv Hnd' Hs Hn') as Hinv'.
    assert (Hstep : bfs_while (S fuel) (_adj G) seen next
                    = bfs_while fuel (_adj G) seen' next').
    { rewrite Hnext in Hrun |- *. cbn [bfs_while]. by rewrite Hrun. }
    rewrite Hstep. destruct next' as [|y next''].
    { exists seen'. rewrite bfs_while_nil. split; [done|]. split; [done|].
      intros x. by apply bfs_inv_done. }
    apply IH; [done|].
    destruct (proj1 (Hn' y)) as (v & Hv & Hv' & _); [left|].
    assert (Hle : (length (v :: seen) <= length seen')%nat).
    { apply NoDup_incl_length.
      - apply NoDup_cons. split; [done | apply Hinv].
      - intros x [->|Hx]%elem_of_cons; apply Hs; auto. }
    simpl in Hle. lia.
Qed.

(** [_plain_bfs] returns, each node once, the nodes that can be reached
    from [source]. *)
Lemma plain_bfs_total (source : key) :
  source ∈ nodes G ->
  exists c,
    _plain_bfs G source = Ok c /\
    NoDup c /\ (forall x, x ∈ c <-> reach G source x).
Proof.
  intros Hsrc. apply (wf_adj_node G Hwf) in Hsrc.
  unfold _plain_bfs. apply bfs_while_spec; [|simpl; lia]. split.
  - apply NoDup_nil_2.
  - intros x Hx. by apply elem_of_nil in Hx.
  - intros x Hx%list_elem_of_singleton. by subst.
  - intros x [Hx|Hx%list_elem_of_singleton]; [by apply elem_of_nil in Hx|].
    subst. apply rtc_refl.
  - intros x y Hx. by apply elem_of_nil in Hx.
  - right. left.
Qed.
End Bfs.

(** ** Connected components *)

Lemma elem_of_map {A B : Type} (f : A -> B) (l : list A) (y : B) :
  y ∈ map f l <-> exists x, y = f x /\ x ∈ l.
Proof.
  induction l as [|a l IH]; simpl.
  - rewrite elem_of_nil. split; [done|]. intros (x & _ & Hx). by apply elem_of_nil in Hx.
  - rewrite elem_of_cons, IH. split.
    + intros [->|(x & -> & Hx)]; [exists a | exists x]; split; try done; [left | by right].
    + intros (x & -> & [->|Hx]%elem_of_cons); [by left | right; eauto].
Qed.

Lemma NoDup_same_length (l k : list key) :
  NoDup l -> NoDup k -> (forall x, x ∈ l <-> x ∈ k) -> length l = length k.
Proof.
  intros Hl Hk Hlk. apply Nat.le_antisymm; apply NoDup_incl_length; try done.
  - intros x. apply Hlk.
  - intros x. apply Hlk.
Qed.

(** [nx.is_connected] on a graph that has a node. *)
Lemma is_connected_spec (G : Graph) :
  wf_graph G -> nodes G <> [] ->
  exists b, is_connected G = Ok b /\ (b = true <-> connected G).
Proof.
  intros Hwf Hne. unfold is_connected.
  destruct (nodes G) as [|w rest] eqn:Hnodes; [done|].
  assert (Hw : w ∈ nodes G) by (rewrite Hnodes; left).
  destruct (plain_bfs_total G Hwf w Hw) as (c & -> & Hnd & Hc). simpl.
  eexists. split; [reflexivity|]. rewrite Nat.eqb_eq. unfold len.
  rewrite <- (length_dict_keys (_node G)). fold (nodes G). split.
  - intros Hlen u v Hu Hv.
    assert (Hall : forall x, x ∈ nodes G -> x ∈ c).
    { intros x Hx.
      assert (Hperm : c ≡ₚ nodes G).
      { apply submseteq_length_Permutation; [|lia].
        apply NoDup_submseteq; [done|]. intros y Hy%Hc.
        by apply (reach_nodes G w y). }
      by rewrite Hperm. }
    unfold reach. trans w.
    + apply (reach_sym G w u Hwf), Hc, Hall, Hu.
    + apply Hc, Hall, Hv.
  - intros Hconn. apply NoDup_same_length; [done | apply Hwf|].
    intros x. rewrite Hc. split.
    + by apply reach_nodes.
    + intros Hx. by apply Hconn.
Qed.

Lemma is_connected_empty (G : Graph) :
  nodes G = [] -> is_connected G = Raise NetworkXPointlessConcept.
Proof. intros Hn. unfold is_connected. by rewrite Hn. Qed.

(** On a graph that is connected the condition of [fix_connectivity]
    fails and the function ends without a [return]. *)
Lemma fix_connectivity_connected (G : Graph) :
  wf_graph G -> nodes G <> [] -> connected G -> fix_connectivity G = Ok None.
Proof.
  intros Hwf Hne Hconn. unfold fix_connectivity.
  destruct (is_connected_spec G Hwf Hne) as (b & -> & Hb).
  apply Hb in Hconn as ->. reflexivity.
Qed.

(** [nx.connected_components]: each set it yields is what can be reached
    from one of the nodes, and every node not seen before is in one of
    them. *)
Lemma cc_loop_spec (G : Graph) (vs seen : list key) :
  wf_graph G -> (forall v, v ∈ vs -> v ∈ nodes G) ->
  exists cs,
    cc_loop G vs seen = Ok cs /\
    (forall c, c ∈ cs ->
       exists v, v ∈ vs /\ NoDup c /\ forall x, x ∈ c <-> reach G v x) /\
    (forall v, v ∈ vs -> v ∈ seen \/ exists c, c ∈ cs /\ v ∈ c).
Proof.
  intros Hwf. revert seen. induction vs as [|v vs IH]; intros seen Hvs.
  - exists []. split; [done|]. split; intros x Hx; by apply elem_of_nil in Hx.
  - assert (Hvs' : forall w, w ∈ vs -> w ∈ nodes G) by (intros w Hw; apply Hvs; by right).
    simpl. destruct (decide (v ∈ seen)) as [Hv|Hv].
    + destruct (IH seen Hvs') as (cs & -> & H1 & H2). exists cs.
      split; [done|]. split.
      * intros c Hc. destruct (H1 c Hc) as (w & Hw & Hw'). exists w. split; [by right|done].
      * intros w [->|Hw]%elem_of_cons; [by left | by apply H2].
    + destruct (plain_bfs_total G Hwf v) as (c & -> & Hnd & Hc); [apply Hvs; left|].
      simpl. destruct (IH (list_union seen c) Hvs') as (cs & -> & H1 & H2). simpl.
      exists (c :: cs). split; [done|]. split.
      * intros c' [->|Hc']%elem_of_cons.
        -- exists v. split; [left | done].
        -- destruct (H1 c' Hc') as (w & Hw & Hw'). exists w. split; [by right|done].
      * intros w [->|Hw]%elem_of_cons.
        -- right. exists c. split; [left|]. apply Hc, rtc_refl.
        -- destruct (H2 w Hw) as [[?|?]%list_elem_of_union|(c' & Hc' & Hw')].
           ++ by left.
           ++ right. exists c. split; [left | done].
           ++ right. exists c'. split; [by right | done].
Qed.

(** [max(..., key=len)] returns one of the graphs, and none is longer. *)
Lemma max_from_spec (gs : list Graph) (g : Graph) :
  max_from g gs ∈ g :: gs /\
  forall g', g' ∈ g :: gs -> (len g' <= len (max_from g gs))%nat.
Proof.
  revert g. induction gs as [|g1 gs IH]; intros g; simpl.
  - split; [left|]. intros g' Hg'%list_elem_of_singleton. by subst.
  - destruct (Nat.ltb_spec (len g) (len g1)) as [Hlt|Hge].
    + destruct (IH g1) as [Hin Hmax]. split; [by right|].
      intros g' [->|Hg']%elem_of_cons; [|by apply Hmax].
      pose proof (Hmax g1 ltac:(left)). lia.
    + destruct (IH g) as [Hin Hmax]. split.
      * apply elem_of_cons in Hin as [->|Hin]; [left | right; by right].
      * intros g' [->|[->|Hg']%elem_of_cons]%elem_of_cons.
        -- apply Hmax. left.
        -- pose proof (Hmax g ltac:(left)). lia.
        -- apply Hmax. by right.
Qed.

(** *** The subgraph induced by a set of nodes *)

Lemma dict_get_within {K V : Type} `{EqDecision K} (c : list K) (k : K) (d : list (K * V)) :
  dict_get k (filter (fun kv => fst kv ∈ c) d) =
  if decide (k ∈ c) then dict_get k d else None.
Proof.
  induction d as [|[k' v'] d IH]; simpl; [by destruct (decide (k ∈ c))|].
  rewrite filter_cons. simpl. destruct (decide (k' ∈ c)) as [Hk'|Hk']; simpl; rewrite IH.
  - destruct (decide (k = k')) as [->|Hne]; [by rewrite decide_True | done].
  - destruct (decide (k = k')) as [->|Hne]; [by rewrite !decide_False | done].
Qed.

Lemma dict_get_map_values {K V W : Type} `{EqDecision K} (g : V -> W) (k : K)
    (d : list (K * V)) :
  dict_get k (map (fun kv => (fst kv, g (snd kv))) d) = option_map g (dict_get k d).
Proof.
  induction d as [|[k' v'] d IH]; simpl; [reflexivity|].
  destruct (decide (k = k')); [reflexivity | apply IH].
Qed.

Lemma nodes_subgraph (G : Graph) (c : list key) (x : key) :
  x ∈ nodes (subgraph G c) <-> x ∈ c /\ x ∈ nodes G.
Proof.
  unfold nodes, subgraph. simpl. rewrite !elem_of_dict_keys. split.
  - intros [a Ha]. apply list_elem_of_filter in Ha as [Hx Ha]. eauto.
  - intros [Hx [a Ha]]. exists a. by apply list_elem_of_filter.
Qed.

Lemma node_subgraph (G : Graph) (c : list key) (k : key) (a : attrs) :
  dict_get k (_node (subgraph G c)) = Some a -> dict_get k (_node G) = Some a.
Proof.
  unfold subgraph. simpl. rewrite dict_get_within. by destruct (decide (k ∈ c)).
Qed.

Lemma adjacent_subgraph (G : Graph) (c : list key) (x y : key) :
  adjacent (subgraph G c) x y <-> adjacent G x y /\ x ∈ c /\ y ∈ c.
Proof.
  unfold adjacent, has_edge, subgraph. simpl.
  rewrite (dict_get_map_values (fun nbrs => filter (fun e => fst e ∈ c) nbrs)).
  rewrite dict_get_within. destruct (decide (x ∈ c)) as [Hx|Hx].
  - destruct (dict_get x (_adj G)) as [nbrs|]; simpl.
    + unfold dict_has. rewrite dict_get_within.
      destruct (decide (y ∈ c)); [tauto|]. split; [discriminate | tauto].
    + split; [discriminate | tauto].
  - simpl. split; [discriminate | tauto].
Qed.

Lemma len_subgraph (G : Graph) (c : list key) :
  wf_graph G -> NoDup c -> (forall x, x ∈ c -> x ∈ nodes G) ->
  len (subgraph G c) = length c.
Proof.
  intros Hwf Hnd Hc. unfold len.
  rewrite <- (length_dict_keys (_node (subgraph G c))). fold (nodes (subgraph G c)).
  apply NoDup_same_length; [|done|].
  - unfold nodes, subgraph. simpl. apply NoDup_dict_keys_filter, Hwf.
  - intros x. rewrite nodes_subgraph. split; [tauto | auto].
Qed.

(** The subgraph induced by what can be reached from [w] is connected. *)
Lemma component_connected (G : Graph) (c : list key) (w : key) :
  wf_graph G -> (forall x, x ∈ c <-> reach G w x) -> connected (subgraph G c).
Proof.
  intros Hwf Hc.
  assert (Hto : forall x, reach G w x -> reach (subgraph G c) w x).
  { unfold reach at 2. apply rtc_ind_r; [apply rtc_refl|].
    intros y z Hwy Hyz IH. apply rtc_r with y; [done|].
    apply adjacent_subgraph. split; [done|]. split; apply Hc; [done|].
    by apply rtc_r with y. }
  assert (Hfrom : forall x, reach G w x -> reach (subgraph G c) x w).
  { intros x Hx. apply Hto in Hx. revert x Hx.
    apply rtc_ind_r; [apply rtc_refl|].
    intros y z _ Hyz IH. apply rtc_l with y; [|done].
    apply adjacent_subgraph in Hyz as (Hyz & Hy & Hz).
    apply adjacent_subgraph. split; [by apply (wf_sym G Hwf) | done]. }
  intros x y [Hx _]%nodes_subgraph [Hy _]%nodes_subgraph.
  unfold reach. trans w; [apply Hfrom | apply Hto]; by apply Hc.
Qed.

(** ** [fix_connectivity] *)

(** C3 (as amended). On a graph that is not connected [fix_connectivity]
    returns a graph [H] whose nodes are exactly what can be reached from
    one node [w] of [G]: a part of [G] with the attributes and the edges
    [G] has between these nodes, connected, and with at least as many
    nodes as any set of nodes of [G] that can all be reached from one
    node.  The two remaining kinds of graph are left out: the graph with
    no node, on which the function raises, and the connected graph. *)
Theorem largest_component_of_disconnected (G : Graph) :
  wf_graph G -> ~ connected G ->
  exists H w,
    fix_connectivity G = Ok (Some H) /\
    w ∈ nodes G /\
    (forall x, x ∈ nodes H <-> reach G w x) /\
    (forall k a, dict_get k (_node H) = Some a -> dict_get k (_node G) = Some a) /\
    (forall x y, adjacent H x y <-> adjacent G x y /\ x ∈ nodes H /\ y ∈ nodes H) /\
    connected H /\
    (forall v c,
        v ∈ nodes G -> NoDup c -> (forall x, x ∈ c -> reach G v x) ->
        (length c <= len H)%nat).
Proof.
  intros Hwf Hnc.
  assert (Hne : nodes G <> []).
  { intros Hnil. apply Hnc. intros u v Hu. rewrite Hnil in Hu.
    by apply elem_of_nil in Hu. }
  destruct (is_connected_spec G Hwf Hne) as (b & Hb & Hbc).
  destruct b; [by destruct Hnc; apply Hbc|].
  destruct (cc_loop_spec G (nodes G) [] Hwf (fun v Hv => Hv)) as (cs & Hcs & Hcomp & Hcover).
  unfold fix_connectivity, connected_component_subgraphs, connected_components.
  rewrite Hb, Hcs. simpl.
  destruct cs as [|c0 cs'].
  { destruct (nodes G) as [|w0 rest]; [done|].
    destruct (Hcover w0) as [Hw0|(c & Hc & _)]; [left| |]; by apply elem_of_nil in Hw0 || apply elem_of_nil in Hc. }
  simpl. destruct (max_from_spec (map (subgraph G) cs') (subgraph G c0)) as [Hin Hmax].
  change (subgraph G c0 :: map (subgraph G) cs') with (map (subgraph G) (c0 :: cs')) in *.
  apply elem_of_map in Hin as (c & HH & Hc).
  destruct (Hcomp c Hc) as (w & Hw & Hnd & Hreach).
  assert (Hsub : forall x, x ∈ c -> x ∈ nodes G).
  { intros x Hx%Hreach. by apply (reach_nodes G w x). }
  assert (Hnodes : forall x, x ∈ nodes (subgraph G c) <-> reach G w x).
  { intros x. rewrite nodes_subgraph, Hreach. split; [tauto|].
    intros Hx. split; [done|]. by apply (reach_nodes G w x). }
  exists (max_from (subgraph G c0) (map (subgraph G) cs')), w.
  rewrite HH. split; [done|]. split; [done|]. split; [done|]. split_and!.
  - apply node_subgraph.
  - intros x y. rewrite adjacent_subgraph, !nodes_subgraph. split; [|tauto].
    intros (Hxy & Hx & Hy). destruct (wf_adjacent_nodes G x y Hwf Hxy). tauto.
  - by apply component_connected with w.
  - intros v cl Hv Hcl Hreach'.
    destruct (Hcover v Hv) as [Hnil|(c' & Hc' & Hvc')]; [by apply elem_of_nil in Hnil|].
    destruct (Hcomp c' Hc') as (w' & Hw' & Hnd' & Hreach'').
    assert (Hsub' : forall x, x ∈ c' -> x ∈ nodes G).
    { intros x Hx%Hreach''. by apply (reach_nodes G w' x). }
    trans (length c').
    + apply NoDup_incl_length; [done|]. intros x Hx. apply Hreach''.
      unfold reach. trans v; [by apply Hreach'' | by apply Hreach'].
    + rewrite <- (len_subgraph G c' Hwf Hnd' Hsub'), <- HH. apply Hmax.
      apply elem_of_map. eauto.
Qed.

Lemma largest_component_of_disconnected_witness :
  exists H,
    fix_connectivity (graph_of two_triangles) = Ok (Some H) /\
    connected H /\
    nodes H = [KStr "a"; KStr "b"; KStr "c"].
Proof.
  assert (Hwf : wf_graph (graph_of two_triangles)).
  { apply (parse_wf int_of_digits two_triangles). vm_compute. reflexivity. }
  assert (Hnc : ~ connected (graph_of two_triangles)).
  { intros Hconn.
    destruct (is_connected_spec (graph_of two_triangles) Hwf) as (b & Hb & Hbc).
    - vm_compute. discriminate.
    - apply Hbc in Hconn. subst b. vm_compute in Hb. discriminate. }
  destruct (largest_component_of_disconnected (graph_of two_triangles) Hwf Hnc)
    as (H & w & Hfix & _ & _ & _ & _ & Hconn & _).
  exists H. split; [exact Hfix|]. split; [exact Hconn|].
  vm_compute in Hfix. injection Hfix as <-. vm_compute. reflexivity.
Defined.

(** C3, as first stated, fails on the graph with no node:
    [fix_connectivity] returns no graph there. *)
Lemma fix_connectivity_no_node_no_result :
  wf_graph empty_graph /\
  fix_connectivity empty_graph = Raise NetworkXPointlessConcept /\
  ~ (exists H, fix_connectivity empty_graph = Ok (Some H)).
Proof.
  split; [apply wf_empty_graph|]. split; [reflexivity|].
  intros [H HH]. discriminate.
Qed.

(** C1. On the graph of two nodes and one channel, which is connected,
    [fix_connectivity] returns [None], not the graph; [main] run with
    [-C] then hands [None] to [nx.write_gexf], which raises. *)
Theorem fix_connectivity_connected_returns_none :
  is_connected (graph_of one_channel) = Ok true /\
  fix_connectivity (graph_of one_channel) = Ok None /\
  main int_of_digits false true one_channel = ([None], Raise AttributeError).
Proof. split_and!; vm_compute; reflexivity. Qed.

(** C2, as first stated, fails: on the graph with no node
    [fix_connectivity] raises, and so does [main] run with [-C] on the
    document that has no node and no edge. *)
Lemma largest_component_of_empty_raises :
  parse_graph_from_json int_of_digits empty_document = Ok empty_graph /\
  fix_connectivity empty_graph = Raise NetworkXPointlessConcept /\
  main int_of_digits false true empty_document = ([], Raise NetworkXPointlessConcept).
Proof. split_and!; vm_compute; reflexivity. Qed.

(** C2 (as amended). The document with no node and no edge is parsed,
    without error, into the graph with no node and no edge, and [main]
    run without [-C] hands that graph to [nx.write_gexf].  On a graph with
    no node [fix_connectivity] raises [NetworkXPointlessConcept], so that
    [main] run with [-C] ends with this exception and writes nothing. *)
Theorem empty_document_pipeline (int_of_str : string -> result Z) (isolated : bool) :
  parse_graph_from_json int_of_str empty_document = Ok empty_graph /\
  main int_of_str isolated false empty_document = ([Some empty_graph], Ok tt) /\
  (forall G, nodes G = [] -> fix_connectivity G = Raise NetworkXPointlessConcept) /\
  main int_of_str isolated true empty_document = ([], Raise NetworkXPointlessConcept).
Proof.
  split_and!.
  - reflexivity.
  - by destruct isolated.
  - intros G HG. unfold fix_connectivity. by rewrite (is_connected_empty G HG).
  - by destruct isolated.
Qed.

Lemma empty_document_pipeline_witness :
  nodes empty_graph = [] /\
  fix_connectivity empty_graph = Raise NetworkXPointlessConcept.
Proof.
  split; [reflexivity|].
  apply (proj1 (proj2 (proj2 (empty_document_pipeline int_of_digits true)))).
  reflexivity.
Defined.

(** ** Edge attributes *)

Lemma for_each_total_inv {S A : Type} (I : S -> Prop) (body : S -> A -> result S)
    (xs : list A) :
  (forall s x, x ∈ xs -> I s -> exists s', body s x = Ok s' /\ I s') ->
  forall s, I s -> exists s', for_each body s xs = Ok s' /\ I s'.
Proof.
  induction xs as [|x xs IH]; intros Hbody s Hs; simpl; [eauto|].
  destruct (Hbody s x) as (s1 & -> & Hs1); [left|done|]. simpl.
  apply IH; [|done]. intros s0 y Hy. apply Hbody. by right.
Qed.

Lemma dict_keys_app {K V : Type} (d1 d2 : list (K * V)) :
  dict_keys (d1 ++ d2) = dict_keys d1 ++ dict_keys d2.
Proof. unfold dict_keys. apply map_app. Qed.

Lemma dict_set_app_notin {K V : Type} `{EqDecision K} (k : K) (v : V)
    (pre d : list (K * V)) :
  k ∉ dict_keys pre -> dict_set k v (pre ++ d) = pre ++ dict_set k v d.
Proof.
  induction pre as [|[k' v'] pre IH]; intros Hk; simpl; [reflexivity|].
  unfold dict_keys in Hk. simpl in Hk. apply not_elem_of_cons in Hk as [Hne Hk].
  rewrite decide_False by done. by rewrite IH.
Qed.

(** [d.update(other)] when [d] is empty, or has the keys of [other] in the
    same order: the result is [other]. *)
Lemma dict_update_onto {K V : Type} `{EqDecision K} (a old pre : list (K * V)) :
  old = [] \/ dict_keys old = dict_keys a ->
  NoDup (dict_keys (pre ++ a)) ->
  dict_update (pre ++ old) a = pre ++ a.
Proof.
  unfold dict_update. revert old pre. induction a as [|[k x] a IH]; intros old pre Hold Hnd.
  - simpl. destruct Hold as [->|Hold]; [reflexivity|].
    destruct old; [reflexivity | discriminate].
  - simpl. rewrite dict_keys_app in Hnd. apply NoDup_app in Hnd as (Hpre & Hdisj & Ha).
    assert (Hk : k ∉ dict_keys pre).
    { intros Hin. apply (Hdisj k Hin). left. }
    rewrite dict_set_app_notin by done.
    assert (Hnd' : NoDup (dict_keys ((pre ++ [(k, x)]) ++ a))).
    { rewrite <- app_assoc. simpl. rewrite dict_keys_app. apply NoDup_app.
      split_and!; done. }
    destruct Hold as [->|Hold].
    + simpl.
      pose proof (IH [] (pre ++ [(k, x)]) (or_introl eq_refl) Hnd') as E.
      rewrite app_nil_r in E. rewrite E. by rewrite <- app_assoc.
    + destruct old as [|[k' o] old]; [discriminate|]. injection Hold as -> Hold.
      simpl. rewrite decide_True by done.
      replace (pre ++ (k, x) :: old) with ((pre ++ [(k, x)]) ++ old)
        by (by rewrite <- app_assoc).
      rewrite (IH old (pre ++ [(k, x)])); [|by right|done].
      by rewrite <- app_assoc.
Qed.

Lemma NoDup_edge_keys : NoDup edge_keys.
Proof.
  unfold edge_keys.
  repeat (apply NoDup_cons; split;
          [intros Hin;
           repeat (apply elem_of_cons in Hin as [Hin|Hin]; [discriminate|]);
           by apply elem_of_nil in Hin|]).
  apply NoDup_nil_2.
Qed.

Lemma dict_update_edge (old a : attrs) :
  old = [] \/ dict_keys old = edge_keys -> dict_keys a = edge_keys ->
  dict_update old a = a.
Proof.
  intros Hold Ha. apply (dict_update_onto a old []).
  - destruct Hold as [?|Hold]; [by left | right; congruence].
  - simpl. rewrite Ha. apply NoDup_edge_keys.
Qed.

Lemma adjacent_edge_attr (G : Graph) (u v : key) :
  adjacent G u v <-> is_Some (edge_attr G u v).
Proof.
  unfold adjacent, has_edge, edge_attr, dict_has.
  destruct (dict_get u (_adj G)) as [nbrs|].
  - destruct (dict_get v nbrs); split; eauto; try discriminate. by intros [? ?].
  - split; [discriminate | by intros [? ?]].
Qed.

Lemma edge_attr_fresh_node (G : Graph) (n : key) (node' : list (key * attrs)) (x y : key) :
  n ∉ dict_keys (_adj G) ->
  edge_attr {| _node := node'; _adj := dict_set n [] (_adj G) |} x y = edge_attr G x y.
Proof.
  intros Hn. unfold edge_attr. simpl. destruct (decide (n = x)) as [->|Hne].
  - rewrite dict_get_set_eq. apply dict_get_None in Hn. by rewrite Hn.
  - by rewrite dict_get_set_ne.
Qed.

Lemma edge_attr_add_node (G : Graph) (n : key) (a : attrs) (x y : key) :
  wf_graph G -> edge_attr (add_node G n a) x y = edge_attr G x y.
Proof.
  intros Hwf. unfold add_node. destruct (dict_get n (_node G)) as [a0|] eqn:Hg.
  - reflexivity.
  - apply edge_attr_fresh_node. rewrite (wf_adj_node G Hwf). by apply dict_get_None.
Qed.

Lemma edge_attr_ensure_node (G : Graph) (n x y : key) :
  wf_graph G -> edge_attr (ensure_node G n) x y = edge_attr G x y.
Proof.
  intros Hwf. unfold ensure_node. destruct (dict_has n (_node G)) eqn:Hh; [done|].
  apply edge_attr_fresh_node. rewrite (wf_adj_node G Hwf). by apply dict_has_false.
Qed.

(** What [add_edge] does to the attribute dicts: the two entries of the
    edge [u - v] become the old dict of [u - v] updated with the keyword
    arguments, and no other entry changes. *)
Lemma add_edge_attr (G G' : Graph) (u v : key) (a : attrs) :
  wf_graph G -> add_edge G u v a = Ok G' ->
  forall x y,
    edge_attr G' x y =
    if decide (same_pair u v x y)
    then Some (dict_update (default [] (edge_attr G u v)) a)
    else edge_attr G x y.
Proof.
  intros Hwf Hadd x y. unfold add_edge in Hadd.
  set (G1 := ensure_node (ensure_node G u) v) in *.
  assert (Hattr1 : forall x y, edge_attr G1 x y = edge_attr G x y).
  { intros x' y'. unfold G1.
    by rewrite !edge_attr_ensure_node by (by try apply wf_ensure_node). }
  destruct (dict_get u (_adj G1)) as [nu|] eqn:Hnu; [|discriminate].
  assert (Hold : dict_get v nu = edge_attr G u v).
  { rewrite <- Hattr1. unfold edge_attr. by rewrite Hnu. }
  rewrite Hold in Hadd.
  set (dd := dict_update (default [] (edge_attr G u v)) a) in *.
  destruct (dict_get v (dict_set u (dict_set v dd nu) (_adj G1))) as [nv|] eqn:Hnv;
    [|discriminate].
  injection Hadd as <-. rewrite <- Hattr1. unfold edge_attr at 1. simpl.
  unfold same_pair. destruct (decide (v = x)) as [<-|Hvx].
  - rewrite dict_get_set_eq. destruct (decide (u = y)) as [<-|Huy].
    + rewrite dict_get_set_eq. rewrite decide_True; [done | by right].
    + rewrite dict_get_set_ne by done. destruct (decide (u = v)) as [->|Huv].
      * rewrite dict_get_set_eq in Hnv. injection Hnv as <-.
        rewrite dict_get_set_ne by done. rewrite decide_False by (intros [[? ?]|[? ?]]; congruence).
        unfold edge_attr. by rewrite Hnu.
      * rewrite dict_get_set_ne in Hnv by done.
        rewrite decide_False by (intros [[? ?]|[? ?]]; congruence).
        unfold edge_attr. unfold attrs in *. by rewrite Hnv.
  - rewrite dict_get_set_ne by done. destruct (decide (u = x)) as [<-|Hux].
    + rewrite dict_get_set_eq. destruct (decide (v = y)) as [<-|Hvy].
      * rewrite dict_get_set_eq. rewrite decide_True; [done | by left].
      * rewrite dict_get_set_ne by done. rewrite decide_False by (intros [[? ?]|[? ?]]; congruence).
        unfold edge_attr. by rewrite Hnu.
    + rewrite dict_get_set_ne by done. rewrite decide_False by (intros [[? ?]|[? ?]]; congruence).
      reflexivity.
Qed.

Lemma add_edge_edges_ok (G G' : Graph) (u v : key) (a : attrs) :
  wf_graph G -> edges_ok G -> dict_keys a = edge_keys ->
  add_edge G u v a = Ok G' ->
  edges_ok G' /\ edge_attr G' u v = Some a /\ edge_attr G' v u = Some a.
Proof.
  intros Hwf Hok Ha Hadd. pose proof (add_edge_attr G G' u v a Hwf Hadd) as Hattr.
  assert (Hdd : dict_update (default [] (edge_attr G u v)) a = a).
  { apply dict_update_edge; [|done].
    destruct (edge_attr G u v) as [old|] eqn:Hold; simpl; [right | by left].
    by apply (Hok u v). }
  rewrite Hdd in Hattr. split_and!.
  - intros x y b. rewrite Hattr. destruct (decide (same_pair u v x y)).
    + by intros [= <-].
    + apply Hok.
  - rewrite Hattr, decide_True; [done | by left].
  - rewrite Hattr, decide_True; [done | by right].
Qed.

Section EdgeCallFacts.
Variable int_of_str : string -> result Z.

Lemma int_field_inv (e : pyval) (k : string) (val : pyval) :
  int_field int_of_str e k = Ok val ->
  exists x z, subscript e k = Ok x /\ py_int int_of_str x = Ok z /\ val = PInt z.
Proof.
  unfold int_field. intros H.
  destruct (subscript e k) as [x|] eqn:Ex; simpl in H; [|discriminate].
  destruct (py_int int_of_str x) as [z|] eqn:Ez; simpl in H; [|discriminate].
  injection H as <-. exists x, z. done.
Qed.

Lemma policy_field_inv (e : pyval) (p k : string) (val : pyval) :
  policy_field int_of_str e p k = Ok val ->
  exists x z, field_at e (Some p, k) = Ok x /\ py_int int_of_str x = Ok z /\
              val = PInt z.
Proof.
  unfold policy_field, field_at. simpl. intros H.
  destruct (subscript e p) as [policy|]; simpl in *; [|discriminate].
  by apply int_field_inv.
Qed.

Lemma int_field_Ok (e : pyval) (k : string) (x : pyval) (z : Z) :
  field_at e (None, k) = Ok x -> py_int int_of_str x = Ok z ->
  int_field int_of_str e k = Ok (PInt z).
Proof.
  unfold field_at, int_field. simpl. intros -> Hz. simpl. by rewrite Hz.
Qed.

Lemma policy_field_Ok (e : pyval) (p k : string) (x : pyval) (z : Z) :
  field_at e (Some p, k) = Ok x -> py_int int_of_str x = Ok z ->
  policy_field int_of_str e p k = Ok (PInt z).
Proof.
  unfold field_at, policy_field, int_field. simpl. intros H Hz.
  destruct (subscript e p) as [policy|]; simpl in *; [|discriminate].
  rewrite H. simpl. by rewrite Hz.
Qed.

(** The loop body on a record that has its two policies: evaluate the
    arguments, then call [add_edge]. *)
Lemma parse_edge_call (G : Graph) (e : pyval) :
  has_policies e ->
  parse_edge int_of_str G e =
  let! c := edge_call int_of_str e in add_edge G (fst (fst c)) (snd (fst c)) (snd c).
Proof.
  intros (p1 & p2 & H1 & N1 & H2 & N2). unfold parse_edge.
  rewrite H1. simpl. rewrite N1, H2. simpl. rewrite N2. unfold edge_call.
  repeat match goal with
  | |- bind ?m _ = bind (bind ?m _) _ => destruct m; simpl; [|reflexivity]
  end.
  reflexivity.
Qed.

(** What the arguments are, when they all evaluate. *)
Lemma edge_call_fields (e : pyval) (u v : key) (a : attrs) :
  edge_call int_of_str e = Ok (u, v, a) ->
  edge_ends e u v /\ dict_keys a = edge_keys /\
  (forall path name, (path, name) ∈ int_attrs ->
     exists x z, field_at e path = Ok x /\ py_int int_of_str x = Ok z /\
                 dict_get name a = Some (PInt z)) /\
  (exists cid cp,
     subscript e "channel_id" = Ok cid /\ subscript e "chan_point" = Ok cp /\
     dict_get "channel_id" a = Some cid /\ dict_get "chan_point" a = Some cp).
Proof.
  unfold edge_call. intros H.
  destruct (subscript e "node1_pub") as [n1|] eqn:En1; simpl in H; [|discriminate].
  destruct (subscript e "node2_pub") as [n2|] eqn:En2; simpl in H; [|discriminate].
  destruct (int_field int_of_str e "capacity") as [f1|] eqn:F1; simpl in H; [|discriminate].
  destruct (int_field int_of_str e "last_update") as [f2|] eqn:F2; simpl in H; [|discriminate].
  destruct (subscript e "channel_id") as [cid|] eqn:Ecid; simpl in H; [|discriminate].
  destruct (subscript e "chan_point") as [cp|] eqn:Ecp; simpl in H; [|discriminate].
  destruct (policy_field int_of_str e "node1_policy" "time_lock_delta") as [f3|] eqn:F3;
    simpl in H; [|discriminate].
  destruct (policy_field int_of_str e "node1_policy" "min_htlc") as [f4|] eqn:F4;
    simpl in H; [|discriminate].
  destruct (policy_field int_of_str e "node1_policy" "fee_base_msat") as [f5|] eqn:F5;
    simpl in H; [|discriminate].
  destruct (policy_field int_of_str e "node1_policy" "fee_rate_milli_msat") as [f6|] eqn:F6;
    simpl in H; [|discriminate].
  destruct (policy_field int_of_str e "node2_policy" "time_lock_delta") as [f7|] eqn:F7;
    simpl in H; [|discriminate].
  destruct (policy_field int_of_str e "node2_policy" "min_htlc") as [f8|] eqn:F8;
    simpl in H; [|discriminate].
  destruct (policy_field int_of_str e "node2_policy" "fee_base_msat") as [f9|] eqn:F9;
    simpl in H; [|discriminate].
  destruct (policy_field int_of_str e "node2_policy" "fee_rate_milli_msat") as [f10|] eqn:F10;
    simpl in H; [|discriminate].
  destruct (hash_key n1) as [u'|] eqn:Hu; simpl in H; [|discriminate].
  destruct (hash_key n2) as [v'|] eqn:Hv; simpl in H; [|discriminate].
  injection H as <- <- <-.
  apply int_field_inv in F1 as (x1 & z1 & X1 & Z1 & ->).
  apply int_field_inv in F2 as (x2 & z2 & X2 & Z2 & ->).
  apply policy_field_inv in F3 as (x3 & z3 & X3 & Z3 & ->).
  apply policy_field_inv in F4 as (x4 & z4 & X4 & Z4 & ->).
  apply policy_field_inv in F5 as (x5 & z5 & X5 & Z5 & ->).
  apply policy_field_inv in F6 as (x6 & z6 & X6 & Z6 & ->).
  apply policy_field_inv in F7 as (x7 & z7 & X7 & Z7 & ->).
  apply policy_field_inv in F8 as (x8 & z8 & X8 & Z8 & ->).
  apply policy_field_inv in F9 as (x9 & z9 & X9 & Z9 & ->).
  apply policy_field_inv in F10 as (x10 & z10 & X10 & Z10 & ->).
  split_and!.
  - exists n1, n2. done.
  - reflexivity.
  - intros path name Hin. unfold int_attrs in Hin.
    repeat (apply elem_of_cons in Hin as [[= -> ->]|Hin]);
      [..|by apply elem_of_nil in Hin];
      eexists _, _; (split; [eassumption|]); (split; [eassumption|]);
      vm_compute; reflexivity.
  - exists cid, cp. split_and!; [done|done| |]; vm_compute; reflexivity.
Qed.

Lemma complete_edge_call (e : pyval) :
  complete_edge int_of_str e -> exists c, edge_call int_of_str e = Ok c.
Proof.
  intros (_ & Hreq & Hint & u & v & n1 & n2 & En1 & Hu & En2 & Hv).
  destruct (Hreq "channel_id") as [cid Ecid]; [repeat first [left | right]|].
  destruct (Hreq "chan_point") as [cp Ecp]; [repeat first [left | right]|].
  destruct (Hint (None, "capacity")) as (x1 & z1 & X1 & Z1); [repeat first [left | right]|].
  destruct (Hint (None, "last_update")) as (x2 & z2 & X2 & Z2); [repeat first [left | right]|].
  destruct (Hint (Some "node1_policy", "time_lock_delta")) as (x3 & z3 & X3 & Z3);
    [repeat first [left | right]|].
  destruct (Hint (Some "node1_policy", "min_htlc")) as (x4 & z4 & X4 & Z4);
    [repeat first [left | right]|].
  destruct (Hint (Some "node1_policy", "fee_base_msat")) as (x5 & z5 & X5 & Z5);
    [repeat first [left | right]|].
  destruct (Hint (Some "node1_policy", "fee_rate_milli_msat")) as (x6 & z6 & X6 & Z6);
    [repeat first [left | right]|].
  destruct (Hint (Some "node2_policy", "time_lock_delta")) as (x7 & z7 & X7 & Z7);
    [repeat first [left | right]|].
  destruct (Hint (Some "node2_policy", "min_htlc")) as (x8 & z8 & X8 & Z8);
    [repeat first [left | right]|].
  destruct (Hint (Some "node2_policy", "fee_base_msat")) as (x9 & z9 & X9 & Z9);
    [repeat first [left | right]|].
  destruct (Hint (Some "node2_policy", "fee_rate_milli_msat")) as (x10 & z10 & X10 & Z10);
    [repeat first [left | right]|].
  unfold edge_call. rewrite En1. simpl. rewrite En2. simpl.
  rewrite (int_field_Ok _ _ _ _ X1 Z1). simpl.
  rewrite (int_field_Ok _ _ _ _ X2 Z2). simpl.
  rewrite Ecid. simpl. rewrite Ecp. simpl.
  rewrite (policy_field_Ok _ _ _ _ _ X3 Z3). simpl.
  rewrite (policy_field_Ok _ _ _ _ _ X4 Z4). simpl.
  rewrite (policy_field_Ok _ _ _ _ _ X5 Z5). simpl.
  rewrite (policy_field_Ok _ _ _ _ _ X6 Z6). simpl.
  rewrite (policy_field_Ok _ _ _ _ _ X7 Z7). simpl.
  rewrite (policy_field_Ok _ _ _ _ _ X8 Z8). simpl.
  rewrite (policy_field_Ok _ _ _ _ _ X9 Z9). simpl.
  rewrite (policy_field_Ok _ _ _ _ _ X10 Z10). simpl.
  rewrite Hu. simpl. rewrite Hv. simpl. eauto.
Qed.
End EdgeCallFacts.

(** ** More on the parser: the graph it builds *)

Lemma same_pair_swap (u v x y : key) : same_pair u v x y <-> same_pair u v y x.
Proof. unfold same_pair. split; intros [[-> ->]|[-> ->]]; auto. Qed.

Lemma same_pair_flip (u v x y : key) : same_pair u v x y <-> same_pair x y u v.
Proof. unfold same_pair. split; intros [[-> ->]|[-> ->]]; auto. Qed.

Lemma parse_inv_graph_empty : parse_inv_graph empty_graph.
Proof.
  split; [apply wf_empty_graph|]. split.
  - intros x y a [=].
  - intros x y. reflexivity.
Qed.

Lemma parse_node_inv_graph (G G' : Graph) (r : pyval) :
  parse_inv_graph G -> parse_node G r = Ok G' ->
  parse_inv_graph G' /\ (forall x y, edge_attr G' x y = edge_attr G x y).
Proof.
  intros (Hwf & Hok & Hsym) (k & v & _ & ->)%parse_node_inv.
  assert (Hattr : forall x y,
    edge_attr (add_node G k [("last_update", v)]) x y = edge_attr G x y).
  { intros x y. by apply edge_attr_add_node. }
  split; [|exact Hattr]. split; [by apply wf_add_node|]. split.
  - intros x y a. rewrite Hattr. apply Hok.
  - intros x y. rewrite !Hattr. apply Hsym.
Qed.

Lemma node_loop_inv_graph (G0 G : Graph) (l : list pyval) :
  parse_inv_graph G0 -> for_each parse_node G0 l = Ok G ->
  parse_inv_graph G /\ (forall x y, edge_attr G x y = edge_attr G0 x y).
Proof.
  intros Hinv.
  apply (for_each_inv (fun G => parse_inv_graph G /\
           forall x y, edge_attr G x y = edge_attr G0 x y)); [|done].
  intros s r s' _ [Hs Hattr] Hr.
  destruct (parse_node_inv_graph s s' r Hs Hr) as [Hs' Hattr'].
  split; [done|]. intros x y. by rewrite Hattr'.
Qed.

Section ParseMore.
Variable int_of_str : string -> result Z.

(** The loop body, when it does not raise: the record is passed over, or
    the arguments evaluate and [add_edge] is called with them. *)
Lemma parse_edge_inv_call (G G' : Graph) (e : pyval) :
  parse_edge int_of_str G e = Ok G' ->
  (skipped e = true /\ G' = G) \/
  (has_policies e /\
   exists u v a, edge_call int_of_str e = Ok (u, v, a) /\ add_edge G u v a = Ok G').
Proof.
  intros H. destruct (parse_edge_inv int_of_str G G' e H) as [?|[Hpol _]]; [by left|].
  right. split; [done|]. rewrite (parse_edge_call int_of_str G e Hpol) in H.
  apply bind_Ok in H as ([[u v] a] & Hcall & Hadd). eauto.
Qed.

Lemma parse_edge_inv_graph (G G' : Graph) (e : pyval) :
  parse_inv_graph G -> parse_edge int_of_str G e = Ok G' -> parse_inv_graph G'.
Proof.
  intros (Hwf & Hok & Hsym)
    [[_ ->]|(_ & u & v & a & Hcall & Hadd)]%parse_edge_inv_call; [done|].
  destruct (edge_call_fields int_of_str e u v a Hcall) as (_ & Hkeys & _).
  destruct (add_edge_edges_ok G G' u v a Hwf Hok Hkeys Hadd) as (Hok' & _).
  split; [by apply (add_edge_Ok_inv G G' u v a Hwf Hadd)|]. split; [done|].
  intros x y. rewrite !(add_edge_attr G G' u v a Hwf Hadd).
  destruct (decide (same_pair u v x y)) as [Hp|Hp].
  - rewrite decide_True; [done | by apply same_pair_swap].
  - rewrite decide_False; [apply Hsym|]. intros Hp'. by apply Hp, same_pair_swap.
Qed.

Lemma edge_loop_inv_graph (G0 G : Graph) (l : list pyval) :
  parse_inv_graph G0 -> for_each (parse_edge int_of_str) G0 l = Ok G ->
  parse_inv_graph G.
Proof.
  intros Hinv. apply for_each_inv; [|done].
  intros s e s' _ Hs He. by apply (parse_edge_inv_graph s s' e).
Qed.

Lemma parse_inv_graph_result (j : pyval) (G : Graph) :
  parse_graph_from_json int_of_str j = Ok G -> parse_inv_graph G.
Proof.
  intros (nl & el & G0 & _ & _ & Hn & He)%parse_inv.
  destruct (node_loop_inv_graph _ _ _ parse_inv_graph_empty Hn) as [Hinv0 _].
  by apply (edge_loop_inv_graph G0 G el).
Qed.

(** X1. The graph [parse_graph_from_json] returns is an undirected
    graph: no node twice, every edge stored in both directions with the
    same attribute dict, both endpoints of an edge among the nodes, and
    on every edge exactly the twelve attributes the call of [add_edge]
    names. *)
Theorem parsed_graph_is_undirected (json_graph : pyval) (G : Graph) :
  parse_graph_from_json int_of_str json_graph = Ok G ->
  NoDup (nodes G) /\
  (forall u v, adjacent G u v -> adjacent G v u) /\
  (forall u v, adjacent G u v -> u ∈ nodes G /\ v ∈ nodes G) /\
  (forall u v, edge_attr G u v = edge_attr G v u) /\
  (forall u v a, edge_attr G u v = Some a -> dict_keys a = edge_keys).
Proof.
  intros (Hwf & Hok & Hsym)%parse_inv_graph_result. split_and!.
  - apply Hwf.
  - apply Hwf.
  - intros u v. by apply wf_adjacent_nodes.
  - apply Hsym.
  - apply Hok.
Qed.

(** The nodes and the edges after the second loop: those before it, and
    the endpoints and the edges of the records that have their two
    policies. *)
Lemma edge_loop_sets (l : list pyval) (G0 G : Graph) :
  wf_graph G0 -> for_each (parse_edge int_of_str) G0 l = Ok G ->
  (forall k, k ∈ nodes G <->
     k ∈ nodes G0 \/
     exists e u v, e ∈ l /\ has_policies e /\ edge_ends e u v /\ (k = u \/ k = v)) /\
  (forall x y, adjacent G x y <->
     adjacent G0 x y \/
     exists e u v, e ∈ l /\ has_policies e /\ edge_ends e u v /\ same_pair u v x y).
Proof.
  revert G0. induction l as [|e l IH]; intros G0 Hwf; simpl.
  - intros [= <-]. split; intros; (split; [auto|]);
      intros [?|(e & u & v & He & _)]; try done; by apply elem_of_nil in He.
  - intros (G1 & He & Hrun)%bind_Ok.
    pose proof (parse_edge_wf int_of_str G0 G1 e Hwf He) as Hwf1.
    destruct (IH G1 Hwf1 Hrun) as [IHn IHa].
    apply parse_edge_inv in He as [[Hs ->]|(Hpol & u & v & a & Hends & Hadd)].
    + assert (Hno : ~ has_policies e).
      { intros Hpol. by rewrite (has_policies_not_skipped e Hpol) in Hs. }
      split.
      * intros k. rewrite IHn. split.
        -- intros [?|(e' & u & v & He' & H')]; [by left|]. right.
           exists e', u, v. split; [by right | done].
        -- intros [?|(e' & u & v & [->|He']%elem_of_cons & Hpol' & H')]; [by left| |].
           ++ by destruct Hno.
           ++ right. exists e', u, v. done.
      * intros x y. rewrite IHa. split.
        -- intros [?|(e' & u & v & He' & H')]; [by left|]. right.
           exists e', u, v. split; [by right | done].
        -- intros [?|(e' & u & v & [->|He']%elem_of_cons & Hpol' & H')]; [by left| |].
           ++ by destruct Hno.
           ++ right. exists e', u, v. done.
    + destruct (add_edge_Ok_inv G0 G1 u v a Hwf Hadd) as (Hn & _ & Hnew).
      assert (Hnodes : forall k, k ∈ nodes G1 <-> k ∈ nodes G0 \/ k = u \/ k = v).
      { intros k. unfold nodes at 1. rewrite Hn. fold (nodes (ensure_node (ensure_node G0 u) v)).
        rewrite !nodes_ensure_node. tauto. }
      split.
      * intros k. rewrite IHn, Hnodes. split.
        -- intros [[?|Hk]|(e' & u' & v' & He' & H')]; [by left| |].
           ++ right. exists e, u, v. split; [left|done].
           ++ right. exists e', u', v'. split; [by right | done].
        -- intros [?|(e' & u' & v' & [->|He']%elem_of_cons & Hpol' & Hends' & Hk)].
           ++ by left; left.
           ++ destruct (edge_ends_inj _ _ _ _ _ Hends Hends') as [<- <-]. left. by right.
           ++ right. exists e', u', v'. done.
      * intros x y. rewrite IHa, Hnew. split.
        -- intros [[?|Hp]|(e' & u' & v' & He' & H')]; [by left| |].
           ++ right. exists e, u, v. split; [left|done].
           ++ right. exists e', u', v'. split; [by right | done].
        -- intros [?|(e' & u' & v' & [->|He']%elem_of_cons & Hpol' & Hends' & Hp)].
           ++ by left; left.
           ++ destruct (edge_ends_inj _ _ _ _ _ Hends Hends') as [<- <-]. left. by right.
           ++ right. exists e', u', v'. done.
Qed.

(** The two loops of a run that returns a graph: the first one builds a
    graph without edge, the second one starts from it. *)
Lemma parse_loops (json_graph : pyval) (G : Graph) (nl el : list pyval) :
  parse_graph_from_json int_of_str json_graph = Ok G ->
  node_records json_graph nl -> edge_records json_graph el ->
  exists G0,
    for_each parse_node empty_graph nl = Ok G0 /\ wf_graph G0 /\
    (forall x y, ~ adjacent G0 x y) /\
    for_each (parse_edge int_of_str) G0 el = Ok G.
Proof.
  intros Hparse Hnl Hel.
  apply parse_inv in Hparse as (nl' & el' & G0 & Hnl' & Hel' & Hn & Hrun).
  destruct (records_inj json_graph nl nl') as [Heq1 _].
  destruct (records_inj json_graph el el') as [_ Heq2].
  rewrite <- (Heq1 Hnl Hnl') in Hn. rewrite <- (Heq2 Hel Hel') in Hrun.
  destruct (node_loop_inv_graph _ _ _ parse_inv_graph_empty Hn) as [(Hwf0 & _) Hattr0].
  exists G0. split_and!; [done|done| |done].
  intros x y H0. apply adjacent_edge_attr in H0. rewrite Hattr0 in H0. by destruct H0.
Qed.

(** X2. The nodes of the parsed graph are the identities of the node
    records and the endpoints of the edge records that have their two
    policies, and nothing else; its edges are the pairs of endpoints of
    those edge records, and nothing else. *)
Theorem parsed_graph_nodes_and_edges
    (json_graph : pyval) (G : Graph) (nl el : list pyval) :
  parse_graph_from_json int_of_str json_graph = Ok G ->
  node_records json_graph nl -> edge_records json_graph el ->
  (forall k, k ∈ nodes G <->
     (exists r v, r ∈ nl /\ node_entry r k v) \/
     (exists e u v, e ∈ el /\ has_policies e /\ edge_ends e u v /\ (k = u \/ k = v))) /\
  (forall x y, adjacent G x y <->
     exists e u v, e ∈ el /\ has_policies e /\ edge_ends e u v /\ same_pair u v x y).
Proof.
  intros Hparse Hnl Hel.
  destruct (parse_loops json_graph G nl el Hparse Hnl Hel) as (G0 & Hn & Hwf0 & Hno & Hrun).
  destruct (edge_loop_sets el G0 G Hwf0 Hrun) as [Hnodes Hadj]. split.
  - intros k. rewrite Hnodes, (node_loop_nodes _ _ _ k Hn). split.
    + intros [[Hk|?]|?]; [by apply elem_of_nil in Hk | by left | by right].
    + intros [?|?]; [left; by right | by right].
  - intros x y. rewrite Hadj. split; [|by right].
    intros [H0|?]; [|done]. by destruct (Hno x y).
Qed.
End ParseMore.

(** ** More on the parser: what wins, when it succeeds, how it fails *)

Lemma parsed_graph_is_undirected_witness :
  NoDup (nodes (graph_of channel_twice)) /\
  edge_attr (graph_of channel_twice) (KStr "a") (KStr "b")
  = edge_attr (graph_of channel_twice) (KStr "b") (KStr "a").
Proof.
  assert (H : parse_graph_from_json int_of_digits channel_twice
              = Ok (graph_of channel_twice)) by (vm_compute; reflexivity).
  destruct (parsed_graph_is_undirected int_of_digits channel_twice _ H)
    as (Hnd & _ & _ & Hsym & _).
  split; [exact Hnd | apply Hsym].
Defined.

Lemma parsed_graph_nodes_and_edges_witness :
  adjacent (graph_of dangling_edge) (KStr "z") (KStr "a") <->
  exists e u v, e ∈ [channel "a" "z"] /\ has_policies e /\ edge_ends e u v /\
                same_pair u v (KStr "z") (KStr "a").
Proof.
  destruct (parsed_graph_nodes_and_edges int_of_digits dangling_edge
              (graph_of dangling_edge) [node_record "a" (PInt 1)] [channel "a" "z"])
    as [_ Hadj].
  - vm_compute. reflexivity.
  - exists (PList [node_record "a" (PInt 1)]). split; reflexivity.
  - exists (PList [channel "a" "z"]). split; reflexivity.
  - apply Hadj.
Defined.

Lemma for_each_Ok_each {S A : Type} (body : S -> A -> result S) (xs : list A) (s s' : S) :
  for_each body s xs = Ok s' -> forall x, x ∈ xs -> exists s1 s2, body s1 x = Ok s2.
Proof.
  revert s. induction xs as [|y xs IH]; intros s H x Hx; [by apply elem_of_nil in Hx|].
  simpl in H. apply bind_Ok in H as (s1 & Hy & Hrest).
  apply elem_of_cons in Hx as [->|Hx]; [eauto|]. by apply (IH s1).
Qed.

Lemma subscript_raises (v : pyval) (k : string) (e : exn) :
  subscript v k = Raise e -> e = KeyError \/ e = TypeError.
Proof.
  destruct v; simpl; try (intros [= <-]; by right).
  destruct (dict_get k d); [discriminate|]. intros [= <-]. by left.
Qed.

Lemma hash_key_raises (v : pyval) (e : exn) : hash_key v = Raise e -> e = TypeError.
Proof. destruct v; simpl; try discriminate; by intros [= <-]. Qed.

(** A record the first loop cannot insert: the exception is that of a
    subscript or that of hashing the identity. *)
Lemma parse_node_raises (G : Graph) (r : pyval) :
  ~ (exists k v, node_entry r k v) ->
  exists e, (e = KeyError \/ e = TypeError) /\ parse_node G r = Raise e.
Proof.
  intros Hno. unfold parse_node.
  destruct (subscript r "pub_key") as [pk|e1] eqn:E1; simpl.
  2: { exists e1. split; [by apply (subscript_raises r "pub_key") | done]. }
  destruct (subscript r "last_update") as [lu|e2] eqn:E2; simpl.
  2: { exists e2. split; [by apply (subscript_raises r "last_update") | done]. }
  destruct (hash_key pk) as [n|e3] eqn:E3; simpl.
  - destruct Hno. exists n, lu, pk. done.
  - exists e3. split; [right; by apply (hash_key_raises pk) | done].
Qed.

Section ParseSuccess.
Variable int_of_str : string -> result Z.

(** The attribute dict of [x - y] is not touched by the records that
    name another pair. *)
Lemma edge_loop_attr_kept (l : list pyval) (G0 G : Graph) (x y : key) :
  wf_graph G0 -> for_each (parse_edge int_of_str) G0 l = Ok G ->
  (forall e u v, e ∈ l -> has_policies e -> edge_ends e u v -> ~ same_pair x y u v) ->
  edge_attr G x y = edge_attr G0 x y.
Proof.
  revert G0. induction l as [|e l IH]; intros G0 Hwf; simpl.
  - by intros [= <-].
  - intros (G1 & He & Hrun)%bind_Ok Hlast.
    pose proof (parse_edge_wf int_of_str G0 G1 e Hwf He) as Hwf1.
    rewrite (IH G1 Hwf1 Hrun); [|intros e' u v He'; apply Hlast; by right].
    apply (parse_edge_inv_call int_of_str) in He
      as [[_ ->]|(Hpol & u & v & a & Hcall & Hadd)]; [done|].
    destruct (edge_call_fields int_of_str e u v a Hcall) as (Hends & _).
    rewrite (add_edge_attr G0 G1 u v a Hwf Hadd).
    rewrite decide_False; [done|]. intros Hp. apply (Hlast e u v); [left|done|done|].
    by apply same_pair_flip.
Qed.

(** X3. When several edge records name the same two nodes, in one order
    or the other, the edge carries the attributes of the last of them
    that has its two policies: the ten fields passed to [int], converted,
    and [channel_id] and [chan_point] as they are in the record.  The
    edge reads the same from both ends. *)
Theorem last_channel_record_wins
    (json_graph : pyval) (G : Graph) (l1 l2 : list pyval) (e : pyval) (u v : key) :
  parse_graph_from_json int_of_str json_graph = Ok G ->
  edge_records json_graph (l1 ++ e :: l2) ->
  has_policies e -> edge_ends e u v ->
  (forall e' u' v', e' ∈ l2 -> has_policies e' -> edge_ends e' u' v' ->
                    ~ same_pair u v u' v') ->
  exists a,
    edge_attr G u v = Some a /\ edge_attr G v u = Some a /\
    dict_keys a = edge_keys /\
    (forall path name, (path, name) ∈ int_attrs ->
       exists x z, field_at e path = Ok x /\ py_int int_of_str x = Ok z /\
                   dict_get name a = Some (PInt z)) /\
    (exists cid cp,
       subscript e "channel_id" = Ok cid /\ subscript e "chan_point" = Ok cp /\
       dict_get "channel_id" a = Some cid /\ dict_get "chan_point" a = Some cp).
Proof.
  intros Hparse Hel Hpol Hends Hlast.
  apply parse_inv in Hparse as (nl & el & G0 & _ & Hel' & Hn & Hrun).
  destruct (records_inj json_graph (l1 ++ e :: l2) el) as [_ Heq].
  rewrite <- (Heq Hel Hel') in Hrun. clear Heq.
  destruct (node_loop_inv_graph _ _ _ parse_inv_graph_empty Hn) as [Hinv0 _].
  rewrite for_each_app in Hrun. apply bind_Ok in Hrun as (G1 & H1 & Hrun).
  simpl in Hrun. apply bind_Ok in Hrun as (G2 & He & H2).
  destruct (edge_loop_inv_graph int_of_str G0 G1 l1 Hinv0 H1) as (Hwf1 & Hok1 & _).
  apply (parse_edge_inv_call int_of_str) in He
    as [[Hs _]|(_ & u' & v' & a & Hcall & Hadd)].
  { by rewrite (has_policies_not_skipped e Hpol) in Hs. }
  destruct (edge_call_fields int_of_str e u' v' a Hcall)
    as (Hends' & Hkeys & Hints & Hstr).
  destruct (edge_ends_inj e u v u' v' Hends Hends') as [<- <-].
  destruct (add_edge_edges_ok G1 G2 u v a Hwf1 Hok1 Hkeys Hadd) as (_ & Huv & Hvu).
  destruct (add_edge_Ok_inv G1 G2 u v a Hwf1 Hadd) as (_ & Hwf2 & _).
  exists a. split_and!; [| |done..].
  - by rewrite (edge_loop_attr_kept l2 G2 G u v Hwf2 H2).
  - rewrite (edge_loop_attr_kept l2 G2 G v u Hwf2 H2); [done|].
    intros e' u'' v'' He' Hpol' Hends'' Hp.
    apply (Hlast e' u'' v'' He' Hpol' Hends'').
    destruct Hp as [[-> ->]|[-> ->]]; [by right | by left].
Qed.

Lemma int_paths_attrs (path : option string * string) :
  path ∈ int_paths -> exists name, (path, name) ∈ int_attrs.
Proof.
  change int_paths with (map fst int_attrs).
  intros ([p name] & -> & Hin)%elem_of_map. by exists name.
Qed.

(** The arguments of the call evaluate only on a complete record. *)
Lemma edge_call_complete (e : pyval) (c : key * key * attrs) :
  has_policies e -> edge_call int_of_str e = Ok c -> complete_edge int_of_str e.
Proof.
  intros Hpol Hcall. destruct c as [[u v] a].
  destruct (edge_call_fields int_of_str e u v a Hcall)
    as (Hends & _ & Hints & cid & cp & Hcid & Hcp & _).
  assert (Hpaths : forall path, path ∈ int_paths ->
            exists x z, field_at e path = Ok x /\ py_int int_of_str x = Ok z).
  { intros path [name Hin]%int_paths_attrs.
    destruct (Hints path name Hin) as (x & z & Hx & Hz & _). eauto. }
  split; [done|]. split; [|split; [done | eauto]].
  intros k Hk.
  destruct Hends as (n1 & n2 & En1 & _ & En2 & _).
  destruct (Hpaths (None, "capacity")) as (x1 & _ & X1 & _);
    [repeat first [left | right]|].
  destruct (Hpaths (None, "last_update")) as (x2 & _ & X2 & _);
    [repeat first [left | right]|].
  unfold field_at in X1, X2. simpl in X1, X2.
  unfold edge_required_keys in Hk.
  repeat (apply elem_of_cons in Hk as [->|Hk]); [eauto..|].
  by apply elem_of_nil in Hk.
Qed.

(** X4. [parse_graph_from_json] returns a graph exactly when the
    document has [nodes] and [edges] that can be iterated, every node
    record has [pub_key], hashable, and [last_update], and every edge
    record is passed over (one of its policies is [None]) or complete:
    its six keys and ten numeric fields are there, [int] accepts the
    fields, and the two endpoints can be hashed.  In every other case
    it raises. *)
Theorem parse_succeeds_iff (json_graph : pyval) :
  (exists G, parse_graph_from_json int_of_str json_graph = Ok G) <->
  exists nl el,
    node_records json_graph nl /\ edge_records json_graph el /\
    (forall r, r ∈ nl -> exists k v, node_entry r k v) /\
    (forall e, e ∈ el -> edge_accepted int_of_str e).
Proof.
  split.
  - intros [G (nl & el & G0 & Hnl & Hel & Hn & Hrun)%parse_inv].
    exists nl, el. split_and!; [done|done| |].
    + intros r Hr. destruct (for_each_Ok_each _ _ _ _ Hn r Hr) as (s1 & s2 & H12).
      apply parse_node_inv in H12 as (k & v & Hkv & _). eauto.
    + intros e He. destruct (for_each_Ok_each _ _ _ _ Hrun e He) as (s1 & s2 & H12).
      apply (parse_edge_inv_call int_of_str) in H12
        as [[Hs _]|(Hpol & u & v & a & Hcall & _)].
      * by left.
      * right. by apply (edge_call_complete e (u, v, a)).
  - intros (nl & el & (vn & Hvn & Hnl) & (ve & Hve & Hel) & Hnodes & Hedges).
    destruct (node_loop_total empty_graph nl Hnodes) as [G0 Hn].
    destruct (node_loop_inv_graph _ _ _ parse_inv_graph_empty Hn) as [(Hwf0 & _) _].
    destruct (for_each_total_inv wf_graph (parse_edge int_of_str) el)
      with (s := G0) as (G & HG & _); [|done|].
    + intros s e He Hs. destruct (Hedges e He) as [Hsk|Hc].
      * exists s. split; [by apply parse_edge_skipped | done].
      * destruct (complete_edge_call int_of_str e Hc) as [[[u v] a] Hcall].
        destruct Hc as (Hpol & _).
        destruct (add_edge_spec s u v a Hs) as (s' & Hadd & _ & Hwf' & _).
        exists s'. split; [|done].
        by rewrite (parse_edge_call int_of_str s e Hpol), Hcall.
    + exists G. unfold parse_graph_from_json.
      rewrite Hvn. simpl. rewrite Hnl. simpl. rewrite Hn. simpl.
      rewrite Hve. simpl. by rewrite Hel.
Qed.

(** X5. The value under [nodes] has to be a list: [None], a number, a
    dict that is not empty and a string that is not empty make
    [parse_graph_from_json] raise [TypeError], the first two when the
    loop asks for an iterator, the last two when the first item, a
    string, is indexed with ['pub_key']. *)
Theorem nodes_must_be_a_list (json_graph v : pyval) :
  subscript json_graph "nodes" = Ok v ->
  (forall l, v <> PList l) -> v <> PDict [] -> v <> PStr "" ->
  parse_graph_from_json int_of_str json_graph = Raise TypeError.
Proof.
  intros Hv Hlist Hdict Hstr. unfold parse_graph_from_json. rewrite Hv. simpl.
  destruct v as [| | | |s|l|d]; try reflexivity.
  - destruct s; [done | reflexivity].
  - by destruct (Hlist l).
  - destruct d as [|[k x] d]; [done | reflexivity].
Qed.

(** X6. A node record that is not a dict, or lacks [pub_key] or
    [last_update], or whose [pub_key] cannot be hashed, ends
    [parse_graph_from_json] with [KeyError] or [TypeError] when the
    records before it are in order, whatever follows it and whatever the
    edges are; [main] then ends with the same exception and calls
    [nx.write_gexf] not once. *)
Theorem bad_node_record_aborts
    (json_graph : pyval) (l1 l2 : list pyval) (r : pyval) (isolated connected : bool) :
  node_records json_graph (l1 ++ r :: l2) ->
  (forall r', r' ∈ l1 -> exists k v, node_entry r' k v) ->
  ~ (exists k v, node_entry r k v) ->
  exists e,
    (e = KeyError \/ e = TypeError) /\
    parse_graph_from_json int_of_str json_graph = Raise e /\
    main int_of_str isolated connected json_graph = ([], Raise e).
Proof.
  intros (vn & Hvn & Hit) Hl1 Hr.
  destruct (node_loop_total empty_graph l1 Hl1) as [G1 HG1].
  destruct (parse_node_raises G1 r Hr) as (e & He & Hraise).
  assert (Hparse : parse_graph_from_json int_of_str json_graph = Raise e).
  { unfold parse_graph_from_json. rewrite Hvn. simpl. rewrite Hit. simpl.
    rewrite for_each_app, HG1. simpl. by rewrite Hraise. }
  exists e. split; [done|]. split; [done|].
  unfold main, main_graph. by rewrite Hparse.
Qed.
End ParseSuccess.

Lemma last_channel_record_wins_witness :
  exists a,
    edge_attr (graph_of channel_twice) (KStr "b") (KStr "a") = Some a /\
    edge_attr (graph_of channel_twice) (KStr "a") (KStr "b") = Some a /\
    dict_keys a = edge_keys.
Proof.
  destruct (last_channel_record_wins int_of_digits channel_twice
              (graph_of channel_twice) [channel "a" "b"] [] second_channel
              (KStr "b") (KStr "a")) as (a & H1 & H2 & H3 & _).
  - vm_compute. reflexivity.
  - exists (PList [channel "a" "b"; second_channel]). split; reflexivity.
  - exists policy_record, policy_record. split_and!; reflexivity.
  - exists (PStr "b"), (PStr "a"). split_and!; reflexivity.
  - intros e' u' v' He'. by apply elem_of_nil in He'.
  - exists a. split_and!; assumption.
Defined.

Lemma nodes_must_be_a_list_witness :
  parse_graph_from_json int_of_digits nodes_as_dict = Raise TypeError.
Proof.
  apply (nodes_must_be_a_list int_of_digits nodes_as_dict
           (PDict [("a", PInt 1); ("b", PInt 2)])).
  - reflexivity.
  - intros l. discriminate.
  - discriminate.
  - discriminate.
Defined.

Lemma bad_node_record_aborts_witness :
  exists e,
    (e = KeyError \/ e = TypeError) /\
    parse_graph_from_json int_of_digits nameless_document = Raise e /\
    main int_of_digits true true nameless_document = ([], Raise e).
Proof.
  apply (bad_node_record_aborts int_of_digits nameless_document
           [node_record "a" (PInt 1)] [] nameless_node true true).
  - exists (PList [node_record "a" (PInt 1); nameless_node]). split; reflexivity.
  - intros r' Hr. apply list_elem_of_singleton in Hr as ->.
    exists (KStr "a"), (PInt 1), (PStr "a"). split_and!; reflexivity.
  - intros (k & v & pk & Hpk & _). vm_compute in Hpk. discriminate.
Defined.

(** ** More on the parser: an edge record it cannot insert *)

Section ParseFailure.
Variable int_of_str : string -> result Z.

Lemma parse_edge_accepted (G : Graph) (e : pyval) :
  wf_graph G -> edge_accepted int_of_str e ->
  exists G', parse_edge int_of_str G e = Ok G' /\ wf_graph G'.
Proof.
  intros Hwf [Hsk|Hc].
  - exists G. split; [by apply parse_edge_skipped | done].
  - destruct (complete_edge_call int_of_str e Hc) as [[[u v] a] Hcall].
    destruct Hc as (Hpol & _).
    destruct (add_edge_spec G u v a Hwf) as (G' & Hadd & _ & Hwf' & _).
    exists G'. split; [|done].
    by rewrite (parse_edge_call int_of_str G e Hpol), Hcall.
Qed.

(** On a record that is neither passed over nor complete the loop body
    raises before it touches the graph. *)
Lemma parse_edge_rejected (e : pyval) :
  ~ edge_accepted int_of_str e ->
  exists ex, forall G, parse_edge int_of_str G e = Raise ex.
Proof.
  intros Hno.
  destruct (subscript e "node1_policy") as [p1|ex] eqn:H1.
  2: { exists ex. intros G. unfold parse_edge. by rewrite H1. }
  destruct (is_none p1) eqn:N1.
  { destruct Hno. left. unfold skipped. by rewrite H1, N1. }
  destruct (subscript e "node2_policy") as [p2|ex] eqn:H2.
  2: { exists ex. intros G. unfold parse_edge. rewrite H1. simpl. by rewrite N1, H2. }
  destruct (is_none p2) eqn:N2.
  { destruct Hno. left. unfold skipped. by rewrite H1, N1, H2, N2. }
  assert (Hpol : has_policies e) by (by exists p1, p2).
  destruct (edge_call int_of_str e) as [c|ex] eqn:Hcall.
  - destruct Hno. right. by apply (edge_call_complete int_of_str e c).
  - exists ex. intros G. by rewrite (parse_edge_call int_of_str G e Hpol), Hcall.
Qed.

(** X7. An edge record that is neither passed over nor complete (a
    policy key is missing, or one of the six keys, or one of the ten
    numeric fields, or [int] rejects a field, or an endpoint cannot be
    hashed) ends [parse_graph_from_json] when the node records and the
    edge records before it are in order: the exception is the one the
    loop body raises on this record, whatever the graph built so far,
    and [main] ends with it and calls [nx.write_gexf] not once. *)
Theorem bad_edge_record_aborts
    (json_graph : pyval) (nl l1 l2 : list pyval) (e : pyval)
    (isolated connected : bool) :
  node_records json_graph nl ->
  (forall r, r ∈ nl -> exists k v, node_entry r k v) ->
  edge_records json_graph (l1 ++ e :: l2) ->
  (forall e', e' ∈ l1 -> edge_accepted int_of_str e') ->
  ~ edge_accepted int_of_str e ->
  exists ex,
    (forall G, parse_edge int_of_str G e = Raise ex) /\
    parse_graph_from_json int_of_str json_graph = Raise ex /\
    main int_of_str isolated connected json_graph = ([], Raise ex).
Proof.
  intros (vn & Hvn & Hnl) Hnodes (ve & Hve & Hel) Hl1 Hbad.
  destruct (node_loop_total empty_graph nl Hnodes) as [G0 Hn].
  destruct (node_loop_inv_graph _ _ _ parse_inv_graph_empty Hn) as [(Hwf0 & _) _].
  destruct (for_each_total_inv wf_graph (parse_edge int_of_str) l1)
    with (s := G0) as (G1 & HG1 & _); [|done|].
  { intros s e' He' Hs. apply parse_edge_accepted; auto. }
  destruct (parse_edge_rejected e Hbad) as [ex Hex].
  assert (Hparse : parse_graph_from_json int_of_str json_graph = Raise ex).
  { unfold parse_graph_from_json.
    rewrite Hvn. simpl. rewrite Hnl. simpl. rewrite Hn. simpl.
    rewrite Hve. simpl. rewrite Hel. simpl.
    rewrite for_each_app, HG1. simpl. by rewrite Hex. }
  exists ex. split; [done|]. split; [done|].
  unfold main, main_graph. by rewrite Hparse.
Qed.
End ParseFailure.

Lemma bad_edge_record_aborts_witness :
  exists ex,
    parse_graph_from_json int_of_digits pointless_document = Raise ex /\
    main int_of_digits false false pointless_document = ([], Raise ex).
Proof.
  destruct (bad_edge_record_aborts int_of_digits pointless_document
              [node_record "a" (PInt 1)] [] [] pointless_edge false false)
    as (ex & _ & Hparse & Hmain).
  - exists (PList [node_record "a" (PInt 1)]). split; reflexivity.
  - intros r Hr. apply list_elem_of_singleton in Hr as ->.
    exists (KStr "a"), (PInt 1), (PStr "a"). split_and!; reflexivity.
  - exists (PList [pointless_edge]). split; reflexivity.
  - intros e' He'. by apply elem_of_nil in He'.
  - intros [Hs|(_ & Hreq & _)].
    + vm_compute in Hs. discriminate.
    + destruct (Hreq "chan_point") as [x Hx]; [repeat first [left | right]|].
      vm_compute in Hx. discriminate.
  - exists ex. split; [exact Hparse | exact Hmain].
Defined.

(** ** More on [clean_isolated_nodes] and [fix_connectivity] *)

Lemma elem_of_dict_keys_without {K V : Type} `{EqDecision K} (ns : list K) (k : K)
    (d : list (K * V)) :
  k ∈ dict_keys (filter (fun kv => fst kv ∉ ns) d) <-> k ∈ dict_keys d /\ (k ∉ ns).
Proof.
  rewrite !elem_of_dict_keys. split.
  - intros [v Hv]. apply list_elem_of_filter in Hv as [Hns Hin]. split; [by exists v | done].
  - intros [[v Hv] Hns]. exists v. by apply list_elem_of_filter.
Qed.

Lemma dict_keys_without {K V : Type} `{EqDecision K} (ns : list K) (d : list (K * V)) :
  dict_keys (filter (fun kv => fst kv ∉ ns) d) = filter (fun k => k ∉ ns) (dict_keys d).
Proof.
  unfold dict_keys. induction d as [|[k v] d IH]; [reflexivity|].
  simpl. rewrite !filter_cons. simpl. destruct (decide (k ∉ ns)); simpl; by rewrite IH.
Qed.


(** On a well-formed graph the isolated nodes are the nodes without
    neighbour. *)
Lemma not_isolated_iff (G : Graph) (k : key) :
  wf_graph G -> k ∈ nodes G -> (k ∉ isolates G) <-> exists y, adjacent G k y.
Proof.
  intros Hwf Hk. rewrite (isolates_spec G k (wf_adj_nodup G Hwf)).
  apply (wf_adj_node G Hwf), dict_get_is_Some in Hk as [nbrs Hg]. rewrite Hg. split.
  - intros Hne. destruct nbrs as [|[y a] nbrs]; [done|]. exists y.
    apply adjacent_iff. exists ((y, a) :: nbrs). split; [done | left].
  - intros [y (nbrs' & Hg' & Hy)%adjacent_iff] [= ->]. rewrite Hg in Hg'.
    injection Hg' as <-. by apply elem_of_nil in Hy.
Qed.

Lemma edge_attr_clean (G : Graph) (x y : key) :
  wf_graph G -> edge_attr (clean_isolated_nodes G) x y = edge_attr G x y.
Proof.
  intros Hwf. rewrite (clean_spec G Hwf). unfold edge_attr. simpl.
  destruct (decide (x ∈ isolates G)) as [Hx|Hx].
  - pose proof Hx as Hg. apply isolates_spec in Hg; [|apply Hwf]. rewrite Hg. simpl.
    assert (Hnone : dict_get x (filter (fun kv => fst kv ∉ isolates G) (_adj G)) = None).
    { apply dict_get_None. rewrite elem_of_dict_keys_without. tauto. }
    by rewrite Hnone.
  - by rewrite dict_get_without.
Qed.

Lemma nodes_clean (G : Graph) (k : key) :
  wf_graph G ->
  k ∈ nodes (clean_isolated_nodes G) <-> k ∈ nodes G /\ exists y, adjacent G k y.
Proof.
  intros Hwf. rewrite (clean_spec G Hwf). unfold nodes at 1. simpl.
  rewrite elem_of_dict_keys_without. fold (nodes G). split.
  - intros [Hk Hiso]. split; [done|]. by apply not_isolated_iff.
  - intros [Hk Hy]. split; [done|]. by apply not_isolated_iff.
Qed.

Lemma adjacent_clean (G : Graph) (x y : key) :
  wf_graph G -> adjacent (clean_isolated_nodes G) x y <-> adjacent G x y.
Proof. intros Hwf. by rewrite !adjacent_edge_attr, edge_attr_clean. Qed.

Lemma wf_clean (G : Graph) : wf_graph G -> wf_graph (clean_isolated_nodes G).
Proof.
  intros Hwf. split.
  - rewrite (clean_spec G Hwf). unfold nodes. simpl.
    apply NoDup_dict_keys_filter, Hwf.
  - rewrite (clean_spec G Hwf). simpl. apply NoDup_dict_keys_filter, Hwf.
  - intros k. rewrite (clean_spec G Hwf). unfold nodes. simpl.
    rewrite !elem_of_dict_keys_without. fold (nodes G).
    by rewrite (wf_adj_node G Hwf).
  - intros u v. rewrite !adjacent_clean by done. apply Hwf.
Qed.

Lemma length_nodes_adj (G : Graph) : wf_graph G -> length (_adj G) = len G.
Proof.
  intros Hwf. unfold len. rewrite <- !length_dict_keys.
  apply NoDup_same_length; [apply Hwf..|]. apply Hwf.
Qed.

Lemma length_filter_split {A : Type} (P : A -> Prop) `{forall x, Decision (P x)}
    (l : list A) :
  (length (filter P l) + length (filter (fun x => ~ P x) l) = length l)%nat.
Proof.
  rewrite <- length_app. apply Permutation_length, filter_app_complement.
Qed.

Lemma filter_iff_within {A : Type} (P Q : A -> Prop)
    `{forall x, Decision (P x)} `{forall x, Decision (Q x)} (l : list A) :
  (forall x, x ∈ l -> P x <-> Q x) -> filter P l = filter Q l.
Proof.
  induction l as [|a l IH]; intros Hl; [reflexivity|].
  rewrite !filter_cons. rewrite IH by (intros x Hx; apply Hl; by right).
  destruct (Hl a) as [H1 H2]; [left|].
  destruct (decide (P a)), (decide (Q a)); tauto.
Qed.

(** X8. On an undirected graph [clean_isolated_nodes] removes the nodes
    that have no neighbour and nothing else: the nodes that stay are those
    with a neighbour, in the order they had; they keep their attributes;
    every edge stays, with its attributes; as many nodes go as
    [nx.isolates] lists; and in what is left every node has a
    neighbour. *)
Theorem clean_isolated_nodes_removes_only_isolated (G : Graph) :
  wf_graph G ->
  wf_graph (clean_isolated_nodes G) /\
  nodes (clean_isolated_nodes G) = filter (fun k => k ∉ isolates G) (nodes G) /\
  (forall k, k ∈ nodes (clean_isolated_nodes G) <->
             k ∈ nodes G /\ exists y, adjacent G k y) /\
  (forall k, k ∈ nodes (clean_isolated_nodes G) ->
             dict_get k (_node (clean_isolated_nodes G)) = dict_get k (_node G)) /\
  (forall x y, edge_attr (clean_isolated_nodes G) x y = edge_attr G x y) /\
  (len (clean_isolated_nodes G) + length (isolates G) = len G)%nat /\
  (forall k, k ∈ nodes (clean_isolated_nodes G) ->
             exists y, adjacent (clean_isolated_nodes G) k y).
Proof.
  intros Hwf. pose proof (wf_clean G Hwf) as Hwf'. split_and!.
  - done.
  - rewrite (clean_spec G Hwf). unfold nodes. simpl. apply dict_keys_without.
  - intros k. by apply nodes_clean.
  - intros k Hk. rewrite (clean_spec G Hwf) in Hk |- *. unfold nodes in Hk. simpl in *.
    apply elem_of_dict_keys_without in Hk as [_ Hk]. by apply dict_get_without.
  - intros x y. by apply edge_attr_clean.
  - rewrite <- (length_nodes_adj _ Hwf'), <- (length_nodes_adj G Hwf).
    rewrite (clean_spec G Hwf). simpl. unfold isolates. rewrite length_dict_keys.
    rewrite <- (length_filter_split (fun kv => degree_of (fst kv) (snd kv) = 0%nat) (_adj G)).
    rewrite Nat.add_comm. f_equal. f_equal.
    apply filter_iff_within. intros [k nbrs] Hin. simpl.
    rewrite elem_of_dict_keys. split.
    + intros Hno Hd. apply Hno. exists nbrs. by apply list_elem_of_filter.
    + intros Hd [nbrs' Hin']. apply list_elem_of_filter in Hin' as [Hd' Hin'].
      simpl in Hd'. apply degree_of_zero in Hd' as ->.
      pose proof (dict_get_elem_NoDup k nbrs (_adj G) (wf_adj_nodup G Hwf) Hin) as E1.
      pose proof (dict_get_elem_NoDup k [] (_adj G) (wf_adj_nodup G Hwf) Hin') as E2.
      rewrite E1 in E2. injection E2 as ->. by apply Hd.
  - intros k [_ [y Hy]]%nodes_clean; [|done]. exists y. by apply adjacent_clean.
Qed.

Lemma clean_isolated_nodes_removes_only_isolated_witness :
  nodes (clean_isolated_nodes (graph_of one_isolated))
  = filter (fun k => k ∉ isolates (graph_of one_isolated)) (nodes (graph_of one_isolated)) /\
  (len (clean_isolated_nodes (graph_of one_isolated))
   + length (isolates (graph_of one_isolated)) = len (graph_of one_isolated))%nat.
Proof.
  assert (Hwf : wf_graph (graph_of one_isolated)).
  { apply (parse_wf int_of_digits one_isolated). vm_compute. reflexivity. }
  destruct (clean_isolated_nodes_removes_only_isolated (graph_of one_isolated) Hwf)
    as (_ & Hnodes & _ & _ & _ & Hlen & _).
  split; [exact Hnodes | exact Hlen].
Defined.

(** *** [fix_connectivity], case by case *)


(** On a graph that is not connected: the components are found, and the
    value is the part of the graph on the first of the longest ones. *)
Lemma fix_connectivity_component (G : Graph) :
  wf_graph G -> ~ connected G ->
  exists cs c w,
    connected_components G = Ok cs /\ c ∈ cs /\
    fix_connectivity G = Ok (Some (subgraph G c)) /\
    w ∈ nodes G /\ NoDup c /\ (forall x, x ∈ c <-> reach G w x) /\
    (forall c', c' ∈ cs -> (length c' <= length c)%nat).
Proof.
  intros Hwf Hnc.
  assert (Hne : nodes G <> []).
  { intros Hnil. apply Hnc. intros u v Hu. rewrite Hnil in Hu.
    by apply elem_of_nil in Hu. }
  destruct (is_connected_spec G Hwf Hne) as (b & Hb & Hbc).
  destruct b; [by destruct Hnc; apply Hbc|].
  destruct (cc_loop_spec G (nodes G) [] Hwf (fun v Hv => Hv)) as (cs & Hcs & Hcomp & Hcover).
  assert (Hlen : forall c, c ∈ cs -> len (subgraph G c) = length c).
  { intros c Hc. destruct (Hcomp c Hc) as (w & Hw & Hnd & Hreach).
    apply len_subgraph; [done..|]. intros x Hx%Hreach. by apply (reach_nodes G w x). }
  unfold fix_connectivity, connected_component_subgraphs.
  fold (connected_components G) in Hcs. rewrite Hb, Hcs. simpl.
  destruct cs as [|c0 cs'].
  { destruct (nodes G) as [|w0 rest]; [done|].
    destruct (Hcover w0) as [Hw0|(c & Hc & _)]; [left| |];
      by apply elem_of_nil in Hw0 || apply elem_of_nil in Hc. }
  simpl. destruct (max_from_spec (map (subgraph G) cs') (subgraph G c0)) as [Hin Hmax].
  change (subgraph G c0 :: map (subgraph G) cs') with (map (subgraph G) (c0 :: cs')) in *.
  apply elem_of_map in Hin as (c & HH & Hc).
  destruct (Hcomp c Hc) as (w & Hw & Hnd & Hreach).
  exists (c0 :: cs'), c, w. rewrite HH. split_and!; try done.
  intros c' Hc'. rewrite <- (Hlen c' Hc'), <- (Hlen c Hc), <- HH.
  apply Hmax. apply elem_of_map. eauto.
Qed.

Lemma fix_connectivity_cases (G : Graph) :
  wf_graph G ->
  (nodes G = [] /\ fix_connectivity G = Raise NetworkXPointlessConcept) \/
  (nodes G <> [] /\ connected G /\ fix_connectivity G = Ok None) \/
  (nodes G <> [] /\ ~ connected G /\ exists c, fix_connectivity G = Ok (Some (subgraph G c))).
Proof.
  intros Hwf. destruct (nodes G) as [|n ns] eqn:En.
  - left. split; [done|]. unfold fix_connectivity. by rewrite (is_connected_empty G En).
  - right. assert (Hne : nodes G <> []) by (by rewrite En).
    destruct (is_connected_spec G Hwf Hne) as (b & Hb & Hbc). destruct b.
    + left. split; [done|]. split; [by apply Hbc|].
      apply fix_connectivity_connected; [done..|]. by apply Hbc.
    + right. assert (Hnc : ~ connected G) by (by intros [=]%Hbc).
      split; [done|]. split; [done|].
      destruct (fix_connectivity_component G Hwf Hnc) as (cs & c & w & _ & _ & Hfix & _).
      eauto.
Qed.

(** X9. What [fix_connectivity] does, case by case, on an undirected
    graph: it raises exactly when the graph has no node; it returns [None]
    exactly when the graph has a node and is connected; it returns a graph
    exactly when the graph is not connected.  So the connected graph
    itself is never returned. *)
Theorem fix_connectivity_outcomes (G : Graph) :
  wf_graph G ->
  (raises (fix_connectivity G) <-> nodes G = []) /\
  (nodes G = [] -> fix_connectivity G = Raise NetworkXPointlessConcept) /\
  (fix_connectivity G = Ok None <-> nodes G <> [] /\ connected G) /\
  ((exists H, fix_connectivity G = Ok (Some H)) <-> ~ connected G) /\
  fix_connectivity G <> Ok (Some G).
Proof.
  intros Hwf.
  destruct (fix_connectivity_cases G Hwf)
    as [[Hnil Hfix]|[(Hne & Hconn & Hfix)|(Hne & Hnc & c & Hfix)]];
    rewrite Hfix; split_and!; try split; try done.
  - by exists NetworkXPointlessConcept.
  - by intros [? ?].
  - intros [H [=]].
  - intros Hnc. destruct Hnc. intros u v Hu. rewrite Hnil in Hu.
    by apply elem_of_nil in Hu.
  - by intros [e [=]].
  - intros [H [=]].
  - by intros [e [=]].
  - by intros [_ ?].
  - eauto.
  - intros [= HG]. apply Hnc. rewrite <- HG.
    destruct (fix_connectivity_component G Hwf Hnc)
      as (cs & c' & w & _ & _ & Hfix' & _ & _ & Hreach & _).
    assert (E : subgraph G c = subgraph G c') by congruence.
    rewrite E. by apply component_connected with w.
Qed.

Lemma fix_connectivity_outcomes_witness :
  (exists H, fix_connectivity (graph_of two_triangles) = Ok (Some H)) <->
  ~ connected (graph_of two_triangles).
Proof.
  apply (fix_connectivity_outcomes (graph_of two_triangles)).
  apply (parse_wf int_of_digits two_triangles). vm_compute. reflexivity.
Defined.



(** ** [max(..., key=len)] and [main] *)

(** [max] keeps the first of the longest graphs. *)
Lemma max_from_first (gs : list Graph) (g : Graph) :
  exists l1 l2,
    g :: gs = l1 ++ max_from g gs :: l2 /\
    (forall x, x ∈ l1 -> (len x < len (max_from g gs))%nat) /\
    (forall x, x ∈ l2 -> (len x <= len (max_from g gs))%nat).
Proof.
  revert g. induction gs as [|g' gs IH]; intros g; simpl.
  - exists [], []. split; [done|]. split; intros x Hx; by apply elem_of_nil in Hx.
  - destruct (len g <? len g')%nat eqn:Hlt.
    + apply Nat.ltb_lt in Hlt. destruct (IH g') as (l1 & l2 & Heq & H1 & H2).
      destruct (max_from_spec gs g') as [_ Hmax].
      exists (g :: l1), l2. split; [simpl; by rewrite <- Heq|]. split; [|done].
      intros x [->|Hx]%elem_of_cons; [|by apply H1].
      specialize (Hmax g' ltac:(left)). lia.
    + apply Nat.ltb_ge in Hlt. destruct (IH g) as (l1 & l2 & Heq & H1 & H2).
      destruct l1 as [|g0 l1]; simpl in Heq.
      * injection Heq as Hg Hgs. exists [], (g' :: gs). rewrite <- Hg. split; [done|].
        split; [intros x Hx; by apply elem_of_nil in Hx|].
        intros x [->|Hx]%elem_of_cons; [lia|]. rewrite Hg. apply H2. by rewrite <- Hgs.
      * injection Heq as <- Hgs. exists (g :: g' :: l1), l2.
        split; [simpl; by rewrite <- Hgs|]. split; [|done].
        assert (Hg : (len g < len (max_from g gs))%nat) by (apply H1; left).
        intros x [->|[->|Hx]%elem_of_cons]%elem_of_cons; [done|lia|].
        apply H1. by right.
Qed.

(** X11. Among components of the same greatest size [fix_connectivity]
    returns the one [nx.connected_components] yields first: every
    component before the one returned is strictly smaller, every one
    after it is no larger. *)
Theorem fix_connectivity_prefers_the_first_largest (G H : Graph) :
  wf_graph G -> fix_connectivity G = Ok (Some H) ->
  exists cs1 c cs2,
    connected_components G = Ok (cs1 ++ c :: cs2) /\
    H = subgraph G c /\ len H = length c /\
    (forall c', c' ∈ cs1 -> (length c' < length c)%nat) /\
    (forall c', c' ∈ cs2 -> (length c' <= length c)%nat).
Proof.
  intros Hwf Hfix.
  destruct (cc_loop_spec G (nodes G) [] Hwf (fun v Hv => Hv)) as (cs & Hcs & Hcomp & _).
  fold (connected_components G) in Hcs.
  assert (Hlen : forall c, c ∈ cs -> len (subgraph G c) = length c).
  { intros c Hc. destruct (Hcomp c Hc) as (w & Hw & Hnd & Hreach).
    apply len_subgraph; [done..|]. intros x Hx%Hreach. by apply (reach_nodes G w x). }
  unfold fix_connectivity, connected_component_subgraphs in Hfix.
  destruct (is_connected G) as [b|]; simpl in Hfix; [|discriminate].
  destruct b; simpl in Hfix; [discriminate|].
  rewrite Hcs in Hfix. simpl in Hfix.
  destruct cs as [|c0 cs']; simpl in Hfix; [discriminate|].
  injection Hfix as <-.
  destruct (max_from_first (map (subgraph G) cs') (subgraph G c0))
    as (l1 & l2 & Heq & H1 & H2).
  change (subgraph G c0 :: map (subgraph G) cs') with (map (subgraph G) (c0 :: cs')) in Heq.
  apply map_eq_app in Heq as (cs1 & rest & Hsplit & Hl1 & Hrest).
  destruct rest as [|c cs2]; [discriminate|]. simpl in Hrest. injection Hrest as Hc Hl2.
  assert (Hin : forall c', c' ∈ cs1 \/ c' = c \/ c' ∈ cs2 -> c' ∈ c0 :: cs').
  { intros c' Hc'. rewrite Hsplit. apply elem_of_app. rewrite elem_of_cons. tauto. }
  exists cs1, c, cs2. rewrite <- Hc, <- Hsplit. split; [done|]. split; [done|].
  split; [apply Hlen, Hin; tauto|]. split.
  - intros c' Hc'. rewrite <- (Hlen c'), <- (Hlen c) by (apply Hin; tauto).
    rewrite Hc. apply H1. rewrite <- Hl1. apply elem_of_map. eauto.
  - intros c' Hc'. rewrite <- (Hlen c'), <- (Hlen c) by (apply Hin; tauto).
    rewrite Hc. apply H2. rewrite <- Hl2. apply elem_of_map. eauto.
Qed.

Lemma fix_connectivity_prefers_the_first_largest_witness :
  exists cs1 c cs2,
    connected_components (graph_of two_triangles) = Ok (cs1 ++ c :: cs2) /\
    subgraph (graph_of two_triangles) [KStr "a"; KStr "b"; KStr "c"]
    = subgraph (graph_of two_triangles) c /\
    len (subgraph (graph_of two_triangles) [KStr "a"; KStr "b"; KStr "c"]) = length c /\
    (forall c', c' ∈ cs1 -> (length c' < length c)%nat) /\
    (forall c', c' ∈ cs2 -> (length c' <= length c)%nat).
Proof.
  apply (fix_connectivity_prefers_the_first_largest (graph_of two_triangles)).
  - apply (parse_wf int_of_digits two_triangles). vm_compute. reflexivity.
  - vm_compute. reflexivity.
Defined.

Section Main.
Variable int_of_str : string -> result Z.


End Main.


